(** * noro-crypto: the dashboards' data-transformation layer

    A shallow embedding of the pure helpers of the two dashboards
    ([src/lib/coingecko.ts], the crypto page and [src/app/nasa/page.tsx])
    and the properties the specification states about them.

    Numbers.  A JavaScript [number] is modelled by [num]: a rational, the two
    infinities or NaN.  Arithmetic on finite values is exact (IEEE rounding
    error is abstracted away and zero is unsigned); division by zero, the
    infinities and NaN behave as in ECMAScript.  Numeric payload fields
    decoded from JSON are finite, hence rationals ([Q]); counters that the
    code only increments are naturals.

    Double precision.  A fact proved over [num] is a fact of the code where
    rounding and overflow cannot change it: the structure of the results,
    counts, comparisons, the formulas themselves, bounds that rounding
    preserves.  Where they can change it, the code is read a second time over
    IEEE 754 binary64 (module [F64]), and the fact is settled there.

    Built-ins of the host that the helpers call (the date formatter,
    [Number], [localeCompare]) are parameters of the functions that use
    them. *)

From Stdlib Require Import QArith Qround Lqa ZArith Lia List Bool Arith.
From Stdlib Require Import String Ascii Permutation Sorted SpecFloat.
Import ListNotations.

Set Implicit Arguments.

(* ================================================================== *)
(** * ECMAScript numbers and built-ins used by the sources *)
(* ================================================================== *)

Module JS.

Local Open Scope Q_scope.

Inductive num : Type :=
| Num (q : Q)
| Infinity
| NegInfinity
| NaN.

Definition of_Z (z : Z) : num := Num (inject_Z z).
Definition of_nat (n : nat) : num := of_Z (Z.of_nat n).

Definition Qltb (a b : Q) : bool := negb (Qle_bool b a).


Definition finite (x : num) : Prop :=
  match x with Num _ => True | _ => False end.

(** ToBoolean on a number: false for 0 and NaN. *)
Definition truthy (x : num) : bool :=
  match x with
  | Num q => negb (Qeq_bool q 0)
  | NaN => false
  | _ => true
  end.

(** [x || y] on numbers. *)
Definition or_else (x y : num) : num := if truthy x then x else y.

(** [x ?? y] where null is [None]. *)
Definition nullish (A : Type) (x : option A) (y : A) : A :=
  match x with Some v => v | None => y end.

Definition neg (x : num) : num :=
  match x with
  | Num q => Num (- q)
  | Infinity => NegInfinity
  | NegInfinity => Infinity
  | NaN => NaN
  end.

Definition add (x y : num) : num :=
  match x, y with
  | Num a, Num b => Num (a + b)
  | NaN, _ | _, NaN => NaN
  | Infinity, NegInfinity | NegInfinity, Infinity => NaN
  | Infinity, _ | _, Infinity => Infinity
  | NegInfinity, _ | _, NegInfinity => NegInfinity
  end.

Definition sub (x y : num) : num := add x (neg y).

Definition mul (x y : num) : num :=
  match x, y with
  | Num a, Num b => Num (a * b)
  | NaN, _ | _, NaN => NaN
  | Num a, Infinity | Infinity, Num a =>
      if Qeq_bool a 0 then NaN else if Qltb a 0 then NegInfinity else Infinity
  | Num a, NegInfinity | NegInfinity, Num a =>
      if Qeq_bool a 0 then NaN else if Qltb a 0 then Infinity else NegInfinity
  | Infinity, Infinity | NegInfinity, NegInfinity => Infinity
  | Infinity, NegInfinity | NegInfinity, Infinity => NaN
  end.

(** Division: a zero divisor gives an infinity (or NaN for 0/0), never an
    exception. *)
Definition div (x y : num) : num :=
  match x, y with
  | Num a, Num b =>
      if Qeq_bool b 0
      then (if Qeq_bool a 0 then NaN
            else if Qltb a 0 then NegInfinity else Infinity)
      else Num (a / b)
  | NaN, _ | _, NaN => NaN
  | Num _, Infinity | Num _, NegInfinity => Num 0
  | Infinity, Num b => if Qltb b 0 then NegInfinity else Infinity
  | NegInfinity, Num b => if Qltb b 0 then Infinity else NegInfinity
  | _, _ => NaN
  end.

(** Truncation toward zero. *)
Definition Qtrunc (q : Q) : Z := if Qltb q 0 then Qceiling q else Qfloor q.

(** [x % y]: the remainder has the sign of the dividend; a finite dividend
    is its own remainder modulo an infinity. *)
Definition rem (x y : num) : num :=
  match x, y with
  | Num a, Num b =>
      if Qeq_bool b 0 then NaN else Num (a - b * inject_Z (Qtrunc (a / b)))
  | Num a, Infinity | Num a, NegInfinity => Num a
  | _, _ => NaN
  end.

(** [x === y], [x > y], [x < y] on numbers (all false on NaN). *)
Definition strict_eq (x y : num) : bool :=
  match x, y with
  | Num a, Num b => Qeq_bool a b
  | Infinity, Infinity | NegInfinity, NegInfinity => true
  | _, _ => false
  end.

Definition lt (x y : num) : bool :=
  match x, y with
  | Num a, Num b => Qltb a b
  | NaN, _ | _, NaN => false
  | NegInfinity, NegInfinity | Infinity, _ | _, NegInfinity => false
  | _, _ => true
  end.

Definition gt (x y : num) : bool := lt y x.

Definition Math_floor (x : num) : num :=
  match x with Num q => of_Z (Qfloor q) | _ => x end.

(** [Math.round]: nearest integer, halves rounded up. *)
Definition Math_round (x : num) : num :=
  match x with Num q => of_Z (Qfloor (q + (1 # 2))) | _ => x end.

Definition max2 (x y : num) : num :=
  match x, y with
  | NaN, _ | _, NaN => NaN
  | Infinity, _ | _, Infinity => Infinity
  | NegInfinity, z | z, NegInfinity => z
  | Num a, Num b => if Qle_bool a b then Num b else Num a
  end.

(** [Math.max(...xs)]; [-Infinity] for no argument. *)
Definition Math_max (xs : list num) : num := fold_left max2 xs NegInfinity.

(** ** Arrays *)

Inductive integer_or_infinity : Type :=
| Int (z : Z)
| PosInf
| NegInf.

Definition ToIntegerOrInfinity (x : num) : integer_or_infinity :=
  match x with
  | NaN => Int 0
  | Infinity => PosInf
  | NegInfinity => NegInf
  | Num q => Int (Qtrunc q)
  end.

(** The clamping of a relative index of [slice] into [0 .. len]. *)
Definition relative_index (len : nat) (x : num) : nat :=
  match ToIntegerOrInfinity x with
  | NegInf => 0%nat
  | PosInf => len
  | Int z =>
      if (z <? 0)%Z then Z.to_nat (Z.max (Z.of_nat len + z) 0)
      else Z.to_nat (Z.min z (Z.of_nat len))
  end.

(** [arr.slice(start, end)]; [end] absent means the length. *)
Definition slice (A : Type) (start : num) (fin : option num) (arr : list A)
  : list A :=
  let len := List.length arr in
  let k := relative_index len start in
  let final := match fin with
               | None => len
               | Some e => relative_index len e
               end in
  firstn (final - k) (skipn k arr).

(** [arr.filter((x, idx) => f x idx)]. *)
Fixpoint filter_from (A : Type) (f : A -> nat -> bool) (idx : nat)
  (arr : list A) : list A :=
  match arr with
  | [] => []
  | x :: rest =>
      if f x idx then x :: filter_from f (S idx) rest
      else filter_from f (S idx) rest
  end.

Definition filter_idx (A : Type) (f : A -> nat -> bool) (arr : list A)
  : list A := filter_from f 0 arr.

(** [arr.sort(cmp)].  ECMAScript requires the sort to be stable, so for a
    consistent comparator the result is determined; it is computed here by
    insertion.  An element moves behind another only when the comparator is
    positive (NaN counts as 0).  For a comparator that is not consistent (a
    NaN among the keys) ECMAScript leaves the order to the implementation:
    the result is then a rearrangement of the array, and the order computed
    here is one of the orders allowed, not the order of a given engine. *)
Fixpoint insert_by (A : Type) (cmp : A -> A -> num) (x : A) (l : list A)
  : list A :=
  match l with
  | [] => [x]
  | y :: rest =>
      if gt (cmp x y) (Num 0) then y :: insert_by cmp x rest
      else x :: l
  end.

Definition sort (A : Type) (cmp : A -> A -> num) (arr : list A) : list A :=
  fold_right (insert_by cmp) [] arr.

(** [arr[i]]: [None] is undefined. *)
Definition get (A : Type) (arr : list A) (i : nat) : option A :=
  nth_error arr i.

(** ** Completions: a value, or a thrown TypeError *)

Inductive completion (A : Type) : Type :=
| Normal (a : A)
| Throw.

Arguments Throw {A}.

Definition bind (A B : Type) (c : completion A) (k : A -> completion B)
  : completion B :=
  match c with Normal a => k a | Throw => Throw end.

(** Reading a property of [undefined] throws. *)
Definition prop (A B : Type) (o : option A) (f : A -> B) : completion B :=
  match o with Some a => Normal (f a) | None => Throw end.

(** [for (let i = start; i < start + count; i++) body]. *)
Fixpoint for_range (St : Type) (body : nat -> St -> completion St)
  (i count : nat) (s : St) : completion St :=
  match count with
  | O => Normal s
  | S c => bind (body i s) (for_range body (S i) c)
  end.

(** ** Strings *)

Definition upper_ascii (c : ascii) : ascii :=
  let n := nat_of_ascii c in
  if andb (97 <=? n)%nat (n <=? 122)%nat then ascii_of_nat (n - 32) else c.

Fixpoint toUpperCase (s : string) : string :=
  match s with
  | EmptyString => EmptyString
  | String c rest => String (upper_ascii c) (toUpperCase rest)
  end.

(** [s.slice(0, n)] for a natural [n]. *)
Definition str_prefix (n : nat) (s : string) : string := substring 0 n s.

End JS.

Import JS.

(* ================================================================== *)
(** * Payload types ([src/types/coingecko.ts], [src/app/nasa/page.tsx]) *)
(* ================================================================== *)

(** One sample of a price series: [[timestamp, price]]. *)
Definition Sample : Type := (Q * Q)%type.

Record MarketCoin : Type := {
  id : string;
  symbol : string;
  name : string;
  image : string;
  current_price : Q;
  market_cap : Q;
  total_volume : Q;
  price_change_percentage_24h : option Q;   (* number | null *)
  market_cap_rank : Q
}.

Record CloseApproach : Type := {
  close_approach_date : string;
  miss_distance_kilometers : string;
  relative_velocity_kilometers_per_second : string;
  orbiting_body : string
}.

Record NeoObject : Type := {
  neo_id : string;
  neo_name : string;
  is_potentially_hazardous_asteroid : bool;
  estimated_diameter_min : Q;
  estimated_diameter_max : Q;
  close_approach_data : list CloseApproach
}.

(** [NeoObject & { date: string }]. *)
Record DatedNeo : Type := {
  neo : NeoObject;
  date : string
}.

Record SolarFlare : Type := {
  flrID : string;
  beginTime : string;
  peakTime : string;
  endTime : string;
  classType : string;
  sourceLocation : option string;
  link : string
}.

(* ================================================================== *)
(** * The metrics helpers (second part of [src/lib/coingecko.ts]) *)
(* ================================================================== *)

Record Bar : Type := {
  label : string;
  value : Q;
  height : num
}.

Record GreenRate : Type := {
  greenRate : num;
  up : nat;
  down : nat
}.

Section Metrics.

(** [new Date(ts).toLocaleDateString("en-US", {month: "short", day: "numeric"})]:
    the host's date formatter. *)
Variable toLocaleDateString : Q -> string.

(** [Math.max(1, Math.floor(prices.length / maxPoints))]. *)
Definition price_step (len : nat) (maxPoints : num) : num :=
  Math_max [Num 1; Math_floor (div (of_nat len) maxPoints)].

(** [prices.filter((_, idx) => idx % step === 0).slice(-maxPoints)]. *)
Definition price_sampled (prices : list Sample) (maxPoints : num)
  : list Sample :=
  let step := price_step (List.length prices) maxPoints in
  slice (neg maxPoints) None
    (filter_idx (fun _ idx => strict_eq (rem (of_nat idx) step) (Num 0))
       prices).

(** [maxValue ? Math.round((price / maxValue) * 100) : 0]. *)
Definition bar_height (v : Q) (maxValue : num) : num :=
  if truthy maxValue
  then Math_round (mul (div (Num v) maxValue) (Num 100))
  else Num 0.

Definition buildPriceBars (prices : list Sample) (maxPoints : num)
  : list Bar :=
  if negb (truthy (of_nat (List.length prices))) then []
  else
    let sampled := price_sampled prices maxPoints in
    let values := map (fun s => Num (snd s)) sampled in
    let maxValue := Math_max values in
    map (fun s =>
           {| label := toLocaleDateString (fst s);
              value := snd s;
              height := bar_height (snd s) maxValue |})
        sampled.

(** The default of the parameter [maxPoints]. *)
Definition maxPoints_default : num := of_nat 12.

End Metrics.

(** The loop body of [computeGreenRate]: reads [prices[i - 1][1]] and
    [prices[i][1]] and updates the two counters. *)
Definition green_body (prices : list Sample) (i : nat) (st : nat * nat)
  : completion (nat * nat) :=
  bind (prop (get prices (i - 1)) snd) (fun prev =>
  bind (prop (get prices i) snd) (fun curr =>
    let diff := sub (Num curr) (Num prev) in
    if gt diff (Num 0) then Normal (fst st + 1, snd st)%nat
    else if lt diff (Num 0) then Normal (fst st, snd st + 1)%nat
    else Normal st)).

Definition computeGreenRate (prices : list Sample) : completion GreenRate :=
  if (List.length prices <? 2)%nat
  then Normal {| greenRate := Num 0; up := 0; down := 0 |}
  else
    bind (for_range (green_body prices) 1 (List.length prices - 1) (0, 0)%nat)
      (fun st =>
         let total := (fst st + snd st)%nat in
         Normal {| greenRate :=
                     if truthy (of_nat total)
                     then mul (div (of_nat (fst st)) (of_nat total)) (Num 100)
                     else Num 0;
                   up := fst st;
                   down := snd st |}).

Definition buildVolumeBars (coins : list MarketCoin) : list Bar :=
  if negb (truthy (of_nat (List.length coins))) then []
  else
    let volumes := map (fun coin => or_else (Num (total_volume coin)) (Num 0))
                       coins in
    let maxVolume := Math_max volumes in
    map (fun coin =>
           {| label := toUpperCase (symbol coin);
              value := total_volume coin;
              height := bar_height (total_volume coin) maxVolume |})
        coins.

(* ================================================================== *)
(** * The crypto page: market share, gainer, loser, average change *)
(* ================================================================== *)

Record MarketShareItem : Type := {
  item_id : string;
  item_name : string;
  share : num
}.

Definition top5 (topCoins : list MarketCoin) : list MarketCoin :=
  slice (Num 0) (Some (Num 5)) topCoins.

Definition totalTop5Cap (topCoins : list MarketCoin) : num :=
  fold_left (fun sum coin => add sum (or_else (Num (market_cap coin)) (Num 0)))
            (top5 topCoins) (Num 0).

Definition marketShare (topCoins : list MarketCoin) : list MarketShareItem :=
  let total := totalTop5Cap topCoins in
  map (fun coin =>
         {| item_id := id coin;
            item_name := name coin;
            share := if truthy total
                     then mul (div (Num (market_cap coin)) total) (Num 100)
                     else Num 0 |})
      (top5 topCoins).

(** [typeof c.price_change_percentage_24h === "number"]. *)
Definition has_change (c : MarketCoin) : bool :=
  match price_change_percentage_24h c with Some _ => true | None => false end.

Definition coinsWithChange (topCoins : list MarketCoin) : list MarketCoin :=
  filter has_change topCoins.

(** [c.price_change_percentage_24h ?? 0]. *)
Definition change_or_0 (c : MarketCoin) : num :=
  Num (nullish (price_change_percentage_24h c) 0).

Definition topGainer (topCoins : list MarketCoin) : option MarketCoin :=
  get (sort (fun a b => sub (change_or_0 b) (change_or_0 a))
            (coinsWithChange topCoins)) 0.

Definition topLoser (topCoins : list MarketCoin) : option MarketCoin :=
  get (sort (fun a b => sub (change_or_0 a) (change_or_0 b))
            (coinsWithChange topCoins)) 0.

Definition avgChange24h (topCoins : list MarketCoin) : num :=
  let cs := coinsWithChange topCoins in
  if (0 <? List.length cs)%nat
  then div (fold_left (fun sum c => add sum (change_or_0 c)) cs (Num 0))
           (of_nat (List.length cs))
  else Num 0.

(* ================================================================== *)
(** * The NASA page: derived-data helpers *)
(* ================================================================== *)

(** [feed.near_earth_objects]: the days in key order, each with its list. *)
Definition NeoFeed : Type := list (string * list NeoObject).

Definition flattenNeos (feed : NeoFeed) : list DatedNeo :=
  fold_left
    (fun entries day =>
       fold_left (fun es obj => es ++ [{| neo := obj; date := fst day |}])
                 (snd day) entries)
    feed [].

Record NeoHazards : Type := {
  total : nat;
  hazardous : nat;
  hazardRate : num;
  avgDiameterKm : num
}.

Definition computeNeoHazards (neos : list DatedNeo) : NeoHazards :=
  let total := List.length neos in
  let hazardous :=
    List.length
      (filter (fun n => is_potentially_hazardous_asteroid (neo n)) neos) in
  let diameters :=
    map (fun n =>
           div (add (Num (estimated_diameter_min (neo n)))
                    (Num (estimated_diameter_max (neo n))))
               (Num 2))
        neos in
  let avgDiameterKm :=
    if (0 <? List.length diameters)%nat
    then div (fold_left (fun sum d => add sum d) diameters (Num 0))
             (of_nat (List.length diameters))
    else Num 0 in
  let hazardRate :=
    if truthy (of_nat total)
    then mul (div (of_nat hazardous) (of_nat total)) (Num 100)
    else Num 0 in
  {| total := total; hazardous := hazardous;
     hazardRate := hazardRate; avgDiameterKm := avgDiameterKm |}.

(** [NeoObject & { date; missKm; velocityKmPerSec }]. *)
Record ClosestNeo : Type := {
  c_neo : NeoObject;
  c_date : string;
  missKm : num;
  velocityKmPerSec : num
}.

(** [arr.filter(Boolean)] on an array of objects and nulls. *)
Fixpoint filter_Boolean (A : Type) (arr : list (option A)) : list A :=
  match arr with
  | [] => []
  | Some a :: rest => a :: filter_Boolean rest
  | None :: rest => filter_Boolean rest
  end.

Record FlareDay : Type := {
  f_date : string;
  f_count : nat
}.

(** A [Map<string, number>]: the entries in insertion order. *)
Definition Map : Type := list (string * nat).

Fixpoint Map_get (m : Map) (k : string) : option nat :=
  match m with
  | [] => None
  | (k', v) :: rest => if String.eqb k' k then Some v else Map_get rest k
  end.

(** [map.set(k, v)]: an existing key keeps its place. *)
Fixpoint Map_set (m : Map) (k : string) (v : nat) : Map :=
  match m with
  | [] => [(k, v)]
  | (k', v') :: rest =>
      if String.eqb k' k then (k', v) :: rest
      else (k', v') :: Map_set rest k v
  end.

Section Nasa.

(** [Number(s)]: the numeric value of a string, NaN when it has none. *)
Variable Number : string -> num.

(** [a.localeCompare(b)]: negative, zero or positive. *)
Variable localeCompare : string -> string -> num.

(** The callback of [neos.map] in [pickClosestNeos]. *)
Definition enrich (n : DatedNeo) : option ClosestNeo :=
  match get (close_approach_data (neo n)) 0 with
  | None => None
  | Some firstApproach =>
      let missKm := Number (miss_distance_kilometers firstApproach) in
      let velocityKmPerSec :=
        Number (relative_velocity_kilometers_per_second firstApproach) in
      Some {| c_neo := neo n;
              c_date := close_approach_date firstApproach;
              missKm := missKm;
              velocityKmPerSec := velocityKmPerSec |}
  end.

Definition pickClosestNeos (neos : list DatedNeo) (limit : num)
  : list ClosestNeo :=
  let enriched := filter_Boolean (map enrich neos) in
  slice (Num 0) (Some limit)
        (sort (fun a b => sub (missKm a) (missKm b)) enriched).

(** The [Map] built by the loop of [groupFlaresByDay]. *)
Definition flare_map (flares : list SolarFlare) : Map :=
  fold_left
    (fun m f =>
       let day := str_prefix 10 (beginTime f) in
       Map_set m day (nullish (Map_get m day) 0 + 1)%nat)
    flares [].

Definition groupFlaresByDay (flares : list SolarFlare) : list FlareDay :=
  sort (fun a b => localeCompare (f_date a) (f_date b))
       (map (fun e => {| f_date := fst e; f_count := snd e |})
            (flare_map flares)).

End Nasa.

(* ================================================================== *)
(** * Definitions that follow the specification's wording *)
(* ================================================================== *)

(** "Keep every [step]-th sample": the samples at the indices divisible by
    [step]. *)
Definition spec_every_nth (A : Type) (step : nat) (l : list A) : list A :=
  map snd
      (filter (fun p => (fst p mod step =? 0)%nat)
              (combine (seq 0 (List.length l)) l)).

(** "Keep only the last [n]". *)
Definition spec_last_n (A : Type) (n : nat) (l : list A) : list A :=
  skipn (List.length l - n) l.

(** The largest of [x] and the elements of [l]. *)
Fixpoint spec_maximum (x : Q) (l : list Q) : Q :=
  match l with
  | [] => x
  | y :: rest => let m := spec_maximum y rest in if Qle_bool x m then m else x
  end.

(** "The maximum value among the retained samples"; 0 when there is none. *)
Definition spec_max_of (l : list Q) : Q :=
  match l with [] => 0%Q | x :: rest => spec_maximum x rest end.

(** "[round(value / max * 100)], or 0 if max is 0". *)
Definition spec_height (v m : Q) : Z :=
  if Qeq_bool m 0 then 0%Z else Qfloor (v / m * 100 + (1 # 2))%Q.

(** The price-bar downsampler of section 4.2. *)
Definition spec_priceBars (fmt : Q -> string) (prices : list Sample) (n : nat)
  : list Bar :=
  let step := Nat.max 1 (List.length prices / n) in
  let retained := spec_last_n n (spec_every_nth step prices) in
  let m := spec_max_of (map snd retained) in
  map (fun s => {| label := fmt (fst s); value := snd s;
                   height := of_Z (spec_height (snd s) m) |})
      retained.

(** The number of consecutive pairs [(prev, curr)] of prices with
    [moved prev curr]. *)
Fixpoint spec_moves (moved : Q -> Q -> bool) (l : list Sample) : nat :=
  match l with
  | [] => 0
  | a :: rest =>
      match rest with
      | [] => 0
      | b :: _ => (if moved (snd a) (snd b) then 1 else 0) + spec_moves moved rest
      end
  end.

(** "Up" if the later price is strictly greater, "down" if strictly less. *)
Definition spec_up (l : list Sample) : nat :=
  spec_moves (fun prev curr => Qltb prev curr) l.

Definition spec_down (l : list Sample) : nat :=
  spec_moves (fun prev curr => Qltb curr prev) l.

(** "[greenRate = up / (up + down) * 100], 0 when [up + down == 0]". *)
Definition spec_green_rate (u d : nat) : num :=
  if (u + d =? 0)%nat then Num 0
  else Num (inject_Z (Z.of_nat u) / inject_Z (Z.of_nat (u + d)) * 100)%Q.

(** The sum of a list of rationals. *)
Definition spec_sum (l : list Q) : Q := fold_right Qplus 0%Q l.

(** "For each object, take its first close-approach record only (objects
    with no approach record are excluded), parse miss distance and relative
    velocity as numeric values". *)
Definition spec_enriched (Number : string -> num) (neos : list DatedNeo)
  : list ClosestNeo :=
  flat_map
    (fun n =>
       match close_approach_data (neo n) with
       | [] => []
       | first :: _ =>
           [{| c_neo := neo n;
               c_date := close_approach_date first;
               missKm := Number (miss_distance_kilometers first);
               velocityKmPerSec :=
                 Number (relative_velocity_kilometers_per_second first) |}]
       end)
    neos.

(** The day of a flare: the first ten characters of its begin time. *)
Definition spec_day (f : SolarFlare) : string := str_prefix 10 (beginTime f).

(* ================================================================== *)
(** * Auxiliary notions *)
(* ================================================================== *)

(** [m] is a largest element of [l]. *)
Definition is_max (m : Q) (l : list Q) : Prop :=
  In m l /\ Forall (fun q => (q <= m)%Q) l.

(** The order of the numbers other than NaN. *)
Definition num_le (x y : num) : Prop :=
  match x, y with
  | NaN, _ | _, NaN => False
  | NegInfinity, _ | _, Infinity => True
  | Num a, Num b => (a <= b)%Q
  | _, _ => False
  end.

(** The sum of an array of numbers, as [arr.reduce((s, x) => s + x, 0)]. *)
Definition sum_nums (l : list num) : num := fold_left add l (Num 0).

(** The value of [q || 0] for a finite [q]. *)
Definition zero_or (q : Q) : Q := if Qeq_bool q 0 then 0%Q else q.

(** The 24h change of a coin as a rational, 0 for null. *)
Definition change_value (c : MarketCoin) : Q :=
  nullish (price_change_percentage_24h c) 0%Q.

(** The keys and the values of a [Map], in insertion order. *)
Definition keys (m : Map) : list string := map fst m.
Definition counts (m : Map) : list nat := map snd m.

(* ================================================================== *)
(** * Sample payloads and built-ins, to run the helpers *)
(* ================================================================== *)

(** A date formatter. *)
Definition plain_label (ts : Q) : string := "Jan 1"%string.

(** A coin with the given symbol, market cap, volume and 24h change. *)
Definition sample_coin (sym : string) (cap vol : Q) (chg : option Q)
  : MarketCoin :=
  {| id := sym; symbol := sym; name := sym; image := EmptyString;
     current_price := 1; market_cap := cap; total_volume := vol;
     price_change_percentage_24h := chg; market_cap_rank := 1 |}.

(** [Number] on the strings of decimal digits (the empty string is 0); any
    other string is given NaN here. *)
Definition digit_of (c : ascii) : option Z :=
  let n := nat_of_ascii c in
  if andb (48 <=? n)%nat (n <=? 57)%nat then Some (Z.of_nat (n - 48)) else None.

Fixpoint digits_value (acc : Z) (s : string) : option Z :=
  match s with
  | EmptyString => Some acc
  | String c rest =>
      match digit_of c with
      | Some d => digits_value (10 * acc + d) rest
      | None => None
      end
  end.

Definition Number_of_digits (s : string) : num :=
  match digits_value 0 s with Some z => of_Z z | None => NaN end.

(** A near-Earth object with the given id and the miss distances of its
    close approaches. *)
Definition sample_neo (i : string) (misses : list string) : DatedNeo :=
  {| neo := {| neo_id := i; neo_name := i;
               is_potentially_hazardous_asteroid := false;
               estimated_diameter_min := 1; estimated_diameter_max := 2;
               close_approach_data :=
                 map (fun m => {| close_approach_date := "2024-01-01"%string;
                                  miss_distance_kilometers := m;
                                  relative_velocity_kilometers_per_second :=
                                    "7"%string;
                                  orbiting_body := "Earth"%string |})
                     misses |};
     date := "2024-01-01"%string |}.

(** The comparison of strings by code units, which is how [localeCompare]
    orders ISO dates. *)
Definition compare_code_units (a b : string) : num :=
  match String.compare a b with
  | Lt => Num (-1)
  | Eq => Num 0
  | Gt => Num 1
  end.

(** A flare with the given id and begin time. *)
Definition sample_flare (i t : string) : SolarFlare :=
  {| flrID := i; beginTime := t; peakTime := t; endTime := t;
     classType := "M1.0"%string; sourceLocation := None;
     link := EmptyString |}.

(* ================================================================== *)
(** * Further built-ins and helpers of the NASA page *)
(* ================================================================== *)

Definition min2 (x y : num) : num :=
  match x, y with
  | NaN, _ | _, NaN => NaN
  | NegInfinity, _ | _, NegInfinity => NegInfinity
  | Infinity, z | z, Infinity => z
  | Num a, Num b => if Qle_bool a b then Num a else Num b
  end.

(** [Math.min(...xs)]; [Infinity] for no argument. *)
Definition Math_min (xs : list num) : num := fold_left min2 xs Infinity.

(** ToNumber of a number that may be undefined. *)
Definition ToNumber (A : Type) (inj : A -> num) (x : option A) : num :=
  match x with Some a => inj a | None => NaN end.

(** [arr.map(f)] when [f] may throw. *)
Fixpoint map_completion (A B : Type) (f : A -> completion B) (arr : list A)
  : completion (list B) :=
  match arr with
  | [] => Normal []
  | x :: rest =>
      bind (f x) (fun y =>
      bind (map_completion f rest) (fun ys => Normal (y :: ys)))
  end.

(** [arr.map((x, idx) => f x idx)]. *)
Fixpoint mapi_from (A B : Type) (f : A -> nat -> B) (idx : nat) (arr : list A)
  : list B :=
  match arr with
  | [] => []
  | x :: rest => f x idx :: mapi_from f (S idx) rest
  end.

Definition mapi (A B : Type) (f : A -> nat -> B) (arr : list A) : list B :=
  mapi_from f 0 arr.

(** [arr.sort()] on strings: the default order, by code units. *)
Definition sort_default (arr : list string) : list string :=
  sort compare_code_units arr.

(** [feed.near_earth_objects[k]]: [None] is undefined. *)
Fixpoint feed_get (feed : NeoFeed) (k : string) : option (list NeoObject) :=
  match feed with
  | [] => None
  | (k', v) :: rest => if String.eqb k' k then Some v else feed_get rest k
  end.

(** [Object.keys(feed.near_earth_objects)]. *)
Definition Object_keys (feed : NeoFeed) : list string := map fst feed.

(** A bar of the chart of objects per day; [nb_count] is [counts[idx]], which
    is undefined ([None]) for an index outside [counts]. *)
Record NeoBar : Type := {
  nb_label : string;
  nb_count : option nat;
  nb_height : num
}.

Section NasaPage.

(** [new Date(date).toLocaleDateString("en-US", {month: "short", day: "numeric"})]
    on a date string. *)
Variable toLocaleDateString : string -> string.

Variable localeCompare : string -> string -> num.

Definition buildNeoBars (feed : NeoFeed) : completion (list NeoBar) :=
  let days := sort_default (Object_keys feed) in
  if negb (truthy (of_nat (List.length days))) then Normal []
  else
    bind (map_completion
            (fun d => prop (feed_get feed d) (@List.length NeoObject)) days)
      (fun counts =>
         let maxCount := Math_max (map of_nat counts) in
         Normal
           (mapi (fun date idx =>
                    let count := get counts idx in
                    {| nb_label := toLocaleDateString date;
                       nb_count := count;
                       nb_height :=
                         if truthy maxCount
                         then Math_round
                                (mul (div (ToNumber of_nat count) maxCount)
                                     (Num 100))
                         else Num 0 |})
                 days)).

(** The array [getSolarFlares] resolves to, [data] being the decoded
    response: [data.sort((a, b) => a.beginTime.localeCompare(b.beginTime))]. *)
Definition getSolarFlares_sorted (data : list SolarFlare) : list SolarFlare :=
  sort (fun a b => localeCompare (beginTime a) (beginTime b)) data.

End NasaPage.

(** The flare read by the "Latest flare" panel of the page:
    [flares[0] && ... flares[flares.length - 1] ...]; [None] when the panel
    is not rendered. *)
Definition latestFlare (flares : list SolarFlare)
  : completion (option SolarFlare) :=
  match get flares 0 with
  | None => Normal None
  | Some _ => prop (get flares (List.length flares - 1)) (fun f => Some f)
  end.

(** The width of a day's bar in the flare list:
    [Math.min(item.count * 25, 100)]. *)
Definition flare_width (item : FlareDay) : num :=
  Math_min [mul (of_nat (f_count item)) (Num 25); Num 100].

(* ================================================================== *)
(** * Auxiliary notions for the further properties *)
(* ================================================================== *)

(** [l1] is [l2] with some elements left out, the order kept. *)
Inductive subseq (A : Type) : list A -> list A -> Prop :=
| subseq_nil : subseq [] []
| subseq_skip (x : A) (l1 l2 : list A) : subseq l1 l2 -> subseq l1 (x :: l2)
| subseq_keep (x : A) (l1 l2 : list A) :
    subseq l1 l2 -> subseq (x :: l1) (x :: l2).

(** The order of strings by code units. *)
Definition str_le (a b : string) : Prop := String.compare a b <> Gt.

(** The number of objects listed under the day [d] of a feed. *)
Definition day_size (feed : NeoFeed) (d : string) : nat :=
  List.length (nullish (feed_get feed d) []).

(** The bars of the objects per day in closed form: one per key in default
    order, with the size of the day's list and its height against the
    largest size. *)
Definition neo_bars_of (fmt : string -> string) (feed : NeoFeed)
  : list NeoBar :=
  let days := sort_default (Object_keys feed) in
  let m := spec_max_of
             (map (fun d => inject_Z (Z.of_nat (day_size feed d))) days) in
  map (fun d =>
         {| nb_label := fmt d;
            nb_count := Some (day_size feed d);
            nb_height :=
              of_Z (spec_height (inject_Z (Z.of_nat (day_size feed d))) m) |})
      days.

(** A feed of two days, given out of order. *)
Definition sample_feed : NeoFeed :=
  [("2024-01-02"%string,
    [neo (sample_neo "a" []); neo (sample_neo "b" [])]);
   ("2024-01-01"%string, [neo (sample_neo "c" [])])].

(** A date formatter on date strings. *)
Definition plain_day (d : string) : string := d.

(* ================================================================== *)
(** * Double precision: the market shares *)
(* ================================================================== *)

(** The numbers of the source are IEEE 754 binary64 values: precision 53,
    exponents up to 1024, every operation rounded to nearest, ties to even.
    [spec_float] is the standard library's specification of them. *)
Module F64.

Definition prec : Z := 53.
Definition emax : Z := 1024.

Definition f64 : Type := spec_float.

Definition zero : f64 := S754_zero false.

(** The double of an integer. *)
Definition of_Z (z : Z) : f64 := binary_normalize prec emax z 0 false.

(** The double nearest to a rational: the decoding of a JSON number. *)
Definition of_Q (q : Q) : f64 :=
  match Qnum q with
  | Z0 => zero
  | Zpos n =>
      SFdiv prec emax (S754_finite false n 0) (S754_finite false (Qden q) 0)
  | Zneg n =>
      SFdiv prec emax (S754_finite true n 0) (S754_finite false (Qden q) 0)
  end.

Definition add (x y : f64) : f64 := SFadd prec emax x y.
Definition mul (x y : f64) : f64 := SFmul prec emax x y.
Definition div (x y : f64) : f64 := SFdiv prec emax x y.

(** ToBoolean on a number: false for the zeros and NaN. *)
Definition truthy (x : f64) : bool :=
  match x with
  | S754_zero _ | S754_nan => false
  | _ => true
  end.

(** [x || y] on numbers. *)
Definition or_else (x y : f64) : f64 := if truthy x then x else y.

(** [arr.reduce((s, x) => s + x, 0)]. *)
Definition sum_nums (l : list f64) : f64 := fold_left add l zero.

Record MarketShareItem : Type := {
  item_id : string;
  item_name : string;
  share : f64
}.

Definition totalTop5Cap (topCoins : list MarketCoin) : f64 :=
  fold_left
    (fun sum coin => add sum (or_else (of_Q (market_cap coin)) zero))
    (top5 topCoins) zero.

Definition marketShare (topCoins : list MarketCoin) : list MarketShareItem :=
  let total := totalTop5Cap topCoins in
  map (fun coin =>
         {| item_id := id coin;
            item_name := name coin;
            share := if truthy total
                     then mul (div (of_Q (market_cap coin)) total)
                              (of_Z 100)
                     else zero |})
      (top5 topCoins).

End F64.



(* ================================================================== *)
(** * Facts about the number model and the array built-ins *)
(* ================================================================== *)

Section NumFacts.
Local Open Scope Q_scope.

Lemma Qltb_lt (a b : Q) : Qltb a b = true <-> a < b.
Proof.
  unfold Qltb. rewrite negb_true_iff.
  split; intro H.
  - apply Qnot_le_lt. intro Hle. apply Qle_bool_iff in Hle. congruence.
  - destruct (Qle_bool b a) eqn:E; [|reflexivity].
    apply Qle_bool_iff in E. exfalso. apply (Qlt_not_le _ _ H E).
Qed.

Lemma Qltb_ge (a b : Q) : Qltb a b = false <-> b <= a.
Proof.
  unfold Qltb. rewrite negb_false_iff. apply Qle_bool_iff.
Qed.

Lemma Qle_bool_false (a b : Q) : Qle_bool a b = false <-> b < a.
Proof.
  rewrite <- Qltb_lt. unfold Qltb. now rewrite negb_true_iff.
Qed.

Lemma Qeq_bool_false (a b : Q) : Qeq_bool a b = false <-> ~ a == b.
Proof.
  split.
  - intros H E. apply Qeq_bool_iff in E. congruence.
  - intro H. destruct (Qeq_bool a b) eqn:E; [|reflexivity].
    apply Qeq_bool_iff in E. contradiction.
Qed.

Lemma truthy_of_nat (n : nat) : truthy (of_nat n) = negb (n =? 0)%nat.
Proof.
  unfold truthy, of_nat, of_Z. destruct n as [|n].
  - reflexivity.
  - simpl (negb (_ =? _)%nat).
    apply negb_true_iff, Qeq_bool_false. intro E.
    unfold Qeq in E. simpl in E. lia.
Qed.

Lemma inject_Z_nat_pos (n : nat) : (1 <= n)%nat -> 0 < inject_Z (Z.of_nat n).
Proof.
  intro H. change 0 with (inject_Z 0). rewrite <- Zlt_Qlt. lia.
Qed.

Lemma div_of_nat (a b : nat) :
  (1 <= b)%nat ->
  div (of_nat a) (of_nat b) = Num (inject_Z (Z.of_nat a) / inject_Z (Z.of_nat b)).
Proof.
  intro H. unfold div, of_nat, of_Z.
  assert (E : Qeq_bool (inject_Z (Z.of_nat b)) 0 = false).
  { apply Qeq_bool_false. pose proof (inject_Z_nat_pos H). lra. }
  now rewrite E.
Qed.

Lemma floor_div_of_nat (a b : nat) :
  (1 <= b)%nat ->
  Math_floor (div (of_nat a) (of_nat b)) = of_nat (a / b).
Proof.
  intro H. rewrite div_of_nat by assumption.
  unfold Math_floor, of_nat. f_equal.
  rewrite <- Zdiv_Qdiv. now rewrite Nat2Z.inj_div.
Qed.

Lemma max2_of_nat (a b : nat) : max2 (of_nat a) (of_nat b) = of_nat (Nat.max a b).
Proof.
  unfold max2, of_nat, of_Z.
  destruct (Qle_bool _ _) eqn:E.
  - apply Qle_bool_iff in E. rewrite <- Zle_Qle in E.
    do 2 f_equal. lia.
  - apply Qle_bool_false in E. rewrite <- Zlt_Qlt in E. do 2 f_equal. lia.
Qed.

(** The step of the downsampler for a natural bar count of at least one. *)
Lemma price_step_of_nat (len n : nat) :
  (1 <= n)%nat -> price_step len (of_nat n) = of_nat (Nat.max 1 (len / n)).
Proof.
  intro H. unfold price_step, Math_max. cbn [fold_left].
  rewrite floor_div_of_nat by assumption.
  change (max2 NegInfinity (Num 1)) with (of_nat 1). apply max2_of_nat.
Qed.

(** [idx % step === 0] on naturals. *)
Lemma rem_of_nat_zero (i s : nat) :
  (1 <= s)%nat ->
  strict_eq (rem (of_nat i) (of_nat s)) (Num 0) = (i mod s =? 0)%nat.
Proof.
  intro H. unfold rem, of_nat, of_Z.
  pose proof (inject_Z_nat_pos H) as Hs.
  assert (E : Qeq_bool (inject_Z (Z.of_nat s)) 0 = false).
  { apply Qeq_bool_false. lra. }
  rewrite E. unfold strict_eq.
  assert (T : Qtrunc (inject_Z (Z.of_nat i) / inject_Z (Z.of_nat s))
              = (Z.of_nat i / Z.of_nat s)%Z).
  { unfold Qtrunc.
    assert (L : Qltb (inject_Z (Z.of_nat i) / inject_Z (Z.of_nat s)) 0 = false).
    { apply Qltb_ge. apply Qle_shift_div_l; [assumption|].
      rewrite Qmult_0_l. change 0 with (inject_Z 0). rewrite <- Zle_Qle. lia. }
    rewrite L. symmetry. apply Zdiv_Qdiv. }
  rewrite T.
  assert (Q1 : inject_Z (Z.of_nat i)
               - inject_Z (Z.of_nat s) * inject_Z (Z.of_nat i / Z.of_nat s)
               == inject_Z (Z.of_nat (i mod s))).
  { rewrite <- inject_Z_mult. unfold Qminus. rewrite <- inject_Z_opp.
    rewrite <- inject_Z_plus. rewrite Nat2Z.inj_mod.
    rewrite Z.mod_eq by lia. reflexivity. }
  rewrite (Qeqb_comp _ _ Q1 0 0 (Qeq_refl 0)).
  destruct (Nat.eqb_spec (i mod s) 0) as [Z0|NZ].
  - rewrite Z0. reflexivity.
  - apply Qeq_bool_false. intro E0. change 0 with (inject_Z 0) in E0.
    rewrite inject_Z_injective in E0. lia.
Qed.

End NumFacts.

Section ArrayFacts.
Variable A : Type.

Lemma filter_from_combine (f : A -> nat -> bool) (l : list A) (i : nat) :
  filter_from f i l
  = map snd (filter (fun p => f (snd p) (fst p))
                    (combine (seq i (List.length l)) l)).
Proof.
  revert i. induction l as [|x l IH]; intro i; simpl.
  - reflexivity.
  - rewrite IH. now destruct (f x i).
Qed.

Lemma filter_from_ext (f g : A -> nat -> bool) (l : list A) (i : nat) :
  (forall x j, f x j = g x j) -> filter_from f i l = filter_from g i l.
Proof.
  intro E. revert i. induction l as [|x l IH]; intro i; simpl.
  - reflexivity.
  - now rewrite E, IH.
Qed.

Lemma filter_from_In (f : A -> nat -> bool) (l : list A) (i : nat) (x : A) :
  In x (filter_from f i l) -> In x l.
Proof.
  revert i. induction l as [|y l IH]; intro i; simpl.
  - auto.
  - destruct (f y i); simpl; intro H.
    + destruct H as [H|H]; eauto.
    + eauto.
Qed.

Lemma filter_from_length (f : A -> nat -> bool) (l : list A) (i : nat) :
  (List.length (filter_from f i l) <= List.length l)%nat.
Proof.
  revert i. induction l as [|y l IH]; intro i; simpl.
  - lia.
  - specialize (IH (S i)). destruct (f y i); simpl; lia.
Qed.

Lemma In_firstn (n : nat) (l : list A) (x : A) : In x (firstn n l) -> In x l.
Proof.
  intro H. rewrite <- (firstn_skipn n l). apply in_or_app. now left.
Qed.

Lemma In_skipn (n : nat) (l : list A) (x : A) : In x (skipn n l) -> In x l.
Proof.
  intro H. rewrite <- (firstn_skipn n l). apply in_or_app. now right.
Qed.

Lemma slice_In (a : num) (b : option num) (l : list A) (x : A) :
  In x (slice a b l) -> In x l.
Proof.
  unfold slice. intro H.
  apply In_firstn in H. eapply In_skipn; eassumption.
Qed.

(** [slice(-n)] for a natural [n >= 1] keeps the last [n] elements. *)
Lemma slice_neg_of_nat (n : nat) (l : list A) :
  (1 <= n)%nat -> slice (neg (of_nat n)) None l = spec_last_n n l.
Proof.
  intro H. unfold slice, spec_last_n, relative_index, neg, of_nat, of_Z.
  unfold ToIntegerOrInfinity.
  assert (T : Qtrunc (- inject_Z (Z.of_nat n)) = (- Z.of_nat n)%Z).
  { unfold Qtrunc.
    assert (L : Qltb (- inject_Z (Z.of_nat n)) 0 = true).
    { apply Qltb_lt. pose proof (inject_Z_nat_pos H). lra. }
    rewrite L. rewrite <- inject_Z_opp. apply Qceiling_Z. }
  rewrite T.
  assert (Ln : (- Z.of_nat n <? 0)%Z = true) by (apply Z.ltb_lt; lia).
  rewrite Ln.
  assert (K : Z.to_nat (Z.max (Z.of_nat (List.length l) + - Z.of_nat n) 0)
              = (List.length l - n)%nat) by lia.
  rewrite K. apply firstn_all2. rewrite length_skipn. lia.
Qed.

(** [slice(-0)] is [slice(0)]: the whole array. *)
Lemma slice_neg_zero (l : list A) : slice (neg (of_nat 0)) None l = l.
Proof.
  unfold slice. change (relative_index (List.length l) (neg (of_nat 0))) with
    (Z.to_nat (Z.min 0 (Z.of_nat (List.length l)))).
  replace (Z.to_nat (Z.min 0 (Z.of_nat (List.length l)))) with 0%nat by lia.
  simpl skipn. rewrite Nat.sub_0_r. apply firstn_all.
Qed.

(** [slice(0, k)] for a natural [k] keeps the first [k] elements. *)
Lemma slice_0_of_nat (k : nat) (l : list A) :
  slice (Num 0) (Some (of_nat k)) l = firstn k l.
Proof.
  unfold slice.
  change (relative_index (List.length l) (Num 0)) with
    (Z.to_nat (Z.min 0 (Z.of_nat (List.length l)))).
  replace (Z.to_nat (Z.min 0 (Z.of_nat (List.length l)))) with 0%nat by lia.
  simpl skipn. rewrite Nat.sub_0_r.
  unfold relative_index, of_nat, of_Z, ToIntegerOrInfinity.
  assert (T : Qtrunc (inject_Z (Z.of_nat k)) = Z.of_nat k).
  { unfold Qtrunc.
    assert (L : Qltb (inject_Z (Z.of_nat k)) 0 = false).
    { apply Qltb_ge. change 0%Q with (inject_Z 0). rewrite <- Zle_Qle. lia. }
    rewrite L. apply Qfloor_Z. }
  rewrite T.
  assert (Lk : (Z.of_nat k <? 0)%Z = false) by (apply Z.ltb_ge; lia).
  rewrite Lk.
  destruct (Nat.le_gt_cases k (List.length l)) as [Hle|Hgt].
  - replace (Z.to_nat (Z.min (Z.of_nat k) (Z.of_nat (List.length l)))) with k
      by lia.
    reflexivity.
  - replace (Z.to_nat (Z.min (Z.of_nat k) (Z.of_nat (List.length l))))
      with (List.length l) by lia.
    rewrite firstn_all. symmetry. apply firstn_all2. lia.
Qed.

Lemma spec_last_n_length (n : nat) (l : list A) :
  (List.length (spec_last_n n l) <= n)%nat.
Proof.
  unfold spec_last_n. rewrite length_skipn. lia.
Qed.

End ArrayFacts.

(** The sampling filter with a natural step is "every [step]-th sample". *)
Lemma filter_idx_every_nth (A : Type) (s : nat) (l : list A) :
  (1 <= s)%nat ->
  filter_idx (fun _ idx => strict_eq (rem (of_nat idx) (of_nat s)) (Num 0)) l
  = spec_every_nth s l.
Proof.
  intro H. unfold filter_idx, spec_every_nth.
  rewrite (filter_from_ext _ (fun _ idx => (idx mod s =? 0)%nat)).
  - apply filter_from_combine.
  - intros _ j. now apply rem_of_nat_zero.
Qed.

Section Maximum.
Local Open Scope Q_scope.

Lemma is_max_unique (m m' : Q) (l : list Q) :
  is_max m l -> is_max m' l -> m == m'.
Proof.
  intros [I1 F1] [I2 F2]. rewrite Forall_forall in F1, F2.
  apply Qle_antisym; auto.
Qed.

Lemma fold_max2_Num (l : list Q) (x : Q) :
  exists m, fold_left max2 (map Num l) (Num x) = Num m /\ is_max m (x :: l).
Proof.
  revert x. induction l as [|y l IH]; intro x; simpl.
  - exists x. split; [reflexivity|]. split; [now left|].
    constructor; [apply Qle_refl|constructor].
  - destruct (Qle_bool x y) eqn:E.
    + apply Qle_bool_iff in E.
      destruct (IH y) as (m & Hm & Hin & Hall). exists m. split; [exact Hm|].
      inversion Hall as [|? ? Hy Hl]; subst. split.
      * right. exact Hin.
      * constructor; [eapply Qle_trans; eassumption|]. now constructor.
    + apply Qle_bool_false in E.
      destruct (IH x) as (m & Hm & Hin & Hall). exists m. split; [exact Hm|].
      inversion Hall as [|? ? Hx Hl]; subst. split.
      * destruct Hin as [Hin|Hin]; [now left|right; now right].
      * constructor; [exact Hx|]. constructor; [|exact Hl].
        apply Qle_trans with x; [apply Qlt_le_weak; exact E|exact Hx].
Qed.

(** [Math.max] of a non-empty array of finite numbers is finite and is a
    largest element. *)
Lemma Math_max_Num (x : Q) (l : list Q) :
  exists m, Math_max (map Num (x :: l)) = Num m /\ is_max m (x :: l).
Proof.
  unfold Math_max. simpl. apply fold_max2_Num.
Qed.

Lemma spec_maximum_is_max (x : Q) (l : list Q) :
  is_max (spec_maximum x l) (x :: l).
Proof.
  revert x. induction l as [|y l IH]; intro x; simpl.
  - split; [now left|]. constructor; [apply Qle_refl|constructor].
  - destruct (IH y) as [Hin Hall].
    destruct (Qle_bool x (spec_maximum y l)) eqn:E.
    + apply Qle_bool_iff in E. split; [now right|].
      constructor; assumption.
    + apply Qle_bool_false in E. split; [now left|].
      constructor; [apply Qle_refl|].
      rewrite Forall_forall in Hall |- *. intros q Hq.
      apply Qle_trans with (spec_maximum y l); [now apply Hall|].
      now apply Qlt_le_weak.
Qed.

Lemma Math_max_spec (x : Q) (l : list Q) :
  exists m, Math_max (map Num (x :: l)) = Num m
            /\ m == spec_max_of (x :: l) /\ is_max m (x :: l).
Proof.
  destruct (Math_max_Num x l) as (m & Hm & Hmax).
  exists m. split; [exact Hm|]. split; [|exact Hmax].
  apply (is_max_unique Hmax). apply spec_maximum_is_max.
Qed.

(** The height of a bar against a finite maximum. *)
Lemma bar_height_spec (v m m' : Q) :
  m == m' -> bar_height v (Num m) = of_Z (spec_height v m').
Proof.
  intro E. unfold bar_height, spec_height, truthy.
  rewrite (Qeqb_comp _ _ E 0 0 (Qeq_refl 0)).
  destruct (Qeq_bool m' 0) eqn:Z0; simpl negb; cbv iota.
  - reflexivity.
  - unfold div.
    rewrite (Qeqb_comp _ _ E 0 0 (Qeq_refl 0)), Z0.
    unfold mul, Math_round. f_equal.
    apply Qfloor_comp. now rewrite E.
Qed.

Lemma spec_height_range (v m : Q) :
  0 <= v -> v <= m -> (0 <= spec_height v m <= 100)%Z.
Proof.
  intros H0 Hm. unfold spec_height.
  destruct (Qeq_bool m 0) eqn:Z0; [lia|].
  apply Qeq_bool_false in Z0.
  assert (Pm : 0 < m) by (destruct (Qlt_le_dec 0 m); [assumption|exfalso; apply Z0; lra]).
  assert (L : 0 <= v / m).
  { apply Qle_shift_div_l; [assumption|]. lra. }
  assert (U : v / m <= 1).
  { apply Qle_shift_div_r; [assumption|]. lra. }
  split.
  - change 0%Z with (Qfloor (inject_Z 0)) at 1.
    apply Qfloor_resp_le. change (inject_Z 0) with 0. lra.
  - assert (F : (Qfloor (v / m * 100 + (1 # 2)) <= Qfloor (inject_Z 100 + (1#2)))%Z).
    { apply Qfloor_resp_le. change (inject_Z 100) with 100. lra. }
    assert (G : Qfloor (inject_Z 100 + (1 # 2)) = 100%Z) by reflexivity.
    lia.
Qed.

Lemma spec_height_full (m : Q) : ~ m == 0 -> spec_height m m = 100%Z.
Proof.
  intro NZ. unfold spec_height.
  apply Qeq_bool_false in NZ. rewrite NZ.
  apply Qeq_bool_false in NZ.
  assert (E : m / m * 100 + (1 # 2) == inject_Z 100 + (1 # 2)).
  { change (inject_Z 100) with 100. field. exact NZ. }
  rewrite (Qfloor_comp _ _ E). reflexivity.
Qed.

End Maximum.

(* ================================================================== *)
(** * The price-bar downsampler *)
(* ================================================================== *)

Section PriceBars.
Local Open Scope Q_scope.
Variable fmt : Q -> string.

Lemma price_sampled_nil (maxPoints : num) : price_sampled [] maxPoints = [].
Proof.
  unfold price_sampled, slice, filter_idx. simpl filter_from.
  rewrite skipn_nil. apply firstn_nil.
Qed.

Lemma price_sampled_In (prices : list Sample) (maxPoints : num) (s : Sample) :
  In s (price_sampled prices maxPoints) -> In s prices.
Proof.
  unfold price_sampled, filter_idx. intro H.
  apply slice_In in H. eapply filter_from_In; eassumption.
Qed.

(** The bars are computed from the retained samples alone. *)
Lemma buildPriceBars_sampled (prices : list Sample) (maxPoints : num) :
  buildPriceBars fmt prices maxPoints
  = let sampled := price_sampled prices maxPoints in
    map (fun s => {| label := fmt (fst s); value := snd s;
                     height := of_Z (spec_height (snd s)
                                       (spec_max_of (map snd sampled))) |})
        sampled.
Proof.
  unfold buildPriceBars. rewrite truthy_of_nat, negb_involutive.
  destruct prices as [|p prices].
  - rewrite price_sampled_nil. reflexivity.
  - cbn [List.length Nat.eqb]. cbv zeta.
    destruct (price_sampled (p :: prices) maxPoints) as [|x r] eqn:S.
    + reflexivity.
    + rewrite <- (map_map snd Num).
      destruct (Math_max_spec (snd x) (map snd r)) as (m & Hm & Em & _).
      apply map_ext. intro s. f_equal.
      change (map snd (x :: r)) with (snd x :: map snd r).
      rewrite Hm. now apply bar_height_spec.
Qed.

Lemma price_sampled_of_nat (prices : list Sample) (n : nat) :
  (1 <= n)%nat ->
  price_sampled prices (of_nat n)
  = spec_last_n n (spec_every_nth (Nat.max 1 (List.length prices / n)) prices).
Proof.
  intro H. unfold price_sampled.
  rewrite price_step_of_nat by assumption.
  rewrite filter_idx_every_nth by lia.
  now apply slice_neg_of_nat.
Qed.

Lemma spec_every_nth_cons (A : Type) (s : nat) (x : A) (l : list A) :
  exists r, spec_every_nth s (x :: l) = x :: r.
Proof.
  unfold spec_every_nth. cbn [List.length seq combine filter fst].
  rewrite Nat.Div0.mod_0_l. cbn [Nat.eqb map snd]. eauto.
Qed.

Lemma spec_last_n_nonempty (A : Type) (n : nat) (l : list A) :
  (1 <= n)%nat -> l <> [] -> spec_last_n n l <> [].
Proof.
  intros H NE E. unfold spec_last_n in E.
  apply (f_equal (@List.length A)) in E. rewrite length_skipn in E.
  destruct l as [|x l]; [congruence|].
  cbn [List.length] in E. lia.
Qed.

End PriceBars.

Section PriceBarTheorems.
Local Open Scope Q_scope.
Variable fmt : Q -> string.

Lemma spec_height_comp (v v' m m' : Q) :
  v == v' -> m == m' -> spec_height v m = spec_height v' m'.
Proof.
  intros Ev Em. unfold spec_height.
  rewrite (Qeqb_comp _ _ Em 0 0 (Qeq_refl 0)).
  destruct (Qeq_bool m' 0); [reflexivity|].
  apply Qfloor_comp. now rewrite Ev, Em.
Qed.

(** Every bar comes from a retained sample, and the maximum of the retained
    prices is one of them and bounds them all. *)
Lemma buildPriceBars_In (prices : list Sample) (maxPoints : num) (b : Bar) :
  In b (buildPriceBars fmt prices maxPoints) ->
  exists s, In s (price_sampled prices maxPoints)
            /\ b = {| label := fmt (fst s); value := snd s;
                      height := of_Z (spec_height (snd s)
                                  (spec_max_of
                                     (map snd (price_sampled prices maxPoints)))) |}
            /\ is_max (spec_max_of (map snd (price_sampled prices maxPoints)))
                      (map snd (price_sampled prices maxPoints)).
Proof.
  rewrite buildPriceBars_sampled. cbv zeta. intro H.
  apply in_map_iff in H. destruct H as (s & Eb & Hs).
  exists s. split; [exact Hs|]. split; [now symmetry|].
  destruct (price_sampled prices maxPoints) as [|x r]; [destruct Hs|].
  apply spec_maximum_is_max.
Qed.

(** C1 (amended): for a bar count [n >= 1] the bars are those of the
    downsampler of the specification: step [max(1, floor(length / n))], the
    samples at the indices divisible by the step, the last [n] of them, each
    with its height normalised against the maximum retained price; an empty
    series gives no bar. *)
Theorem buildPriceBars_downsamples (prices : list Sample) (n : nat) :
  (1 <= n)%nat ->
  let step := Nat.max 1 (List.length prices / n) in
  let retained := spec_last_n n (spec_every_nth step prices) in
  price_step (List.length prices) (of_nat n) = of_nat step
  /\ price_sampled prices (of_nat n) = retained
  /\ buildPriceBars fmt prices (of_nat n) = spec_priceBars fmt prices n
  /\ (retained <> [] ->
      is_max (spec_max_of (map snd retained)) (map snd retained))
  /\ buildPriceBars fmt [] (of_nat n) = [].
Proof.
  intro H. cbv zeta. split; [now apply price_step_of_nat|].
  split; [now apply price_sampled_of_nat|]. split; [|split].
  - rewrite buildPriceBars_sampled. cbv zeta.
    rewrite price_sampled_of_nat by assumption. reflexivity.
  - destruct (spec_last_n n _) as [|x r]; [congruence|].
    intros _. apply spec_maximum_is_max.
  - reflexivity.
Qed.

(** C5 (amended): at most [n] bars for a bar count [n >= 1]; no bar for an
    empty series; heights within [0, 100] when no price is negative. *)
Theorem buildPriceBars_bounds (prices : list Sample) :
  (forall n, (1 <= n)%nat ->
             (List.length (buildPriceBars fmt prices (of_nat n)) <= n)%nat)
  /\ (forall maxPoints, buildPriceBars fmt [] maxPoints = [])
  /\ (forall maxPoints,
        Forall (fun s => 0 <= snd s) prices ->
        Forall (fun b => exists k, height b = of_Z k /\ (0 <= k <= 100)%Z)
               (buildPriceBars fmt prices maxPoints)).
Proof.
  split; [|split].
  - intros n H. rewrite buildPriceBars_sampled. cbv zeta.
    rewrite length_map, price_sampled_of_nat by assumption.
    apply spec_last_n_length.
  - intro maxPoints. reflexivity.
  - intros maxPoints Hpos. apply Forall_forall. intros b Hb.
    apply buildPriceBars_In in Hb. destruct Hb as (s & Hs & Eb & Hin & Hall).
    subst b. cbn [height]. eexists. split; [reflexivity|].
    apply spec_height_range.
    + rewrite Forall_forall in Hpos. apply Hpos.
      eapply price_sampled_In; eassumption.
    + rewrite Forall_forall in Hall. apply Hall. now apply in_map.
Qed.

(** C6 (amended): when all prices equal [p], every bar has height 100 if
    [p] is not zero and height 0 if [p] is zero; for every series, a bar's
    height is [round(value / max * 100)] for the maximum retained price, or
    0 when that maximum is 0; a non-empty series gives at least one bar for
    a bar count [n >= 1]. *)
Theorem buildPriceBars_equal_prices (prices : list Sample) (p : Q) :
  (Forall (fun s => snd s == p) prices ->
   forall maxPoints b,
     In b (buildPriceBars fmt prices maxPoints) ->
     height b = if Qeq_bool p 0 then Num 0 else Num 100)
  /\ (forall maxPoints b,
        In b (buildPriceBars fmt prices maxPoints) ->
        height b = of_Z (spec_height (value b)
                           (spec_max_of
                              (map snd (price_sampled prices maxPoints))))
        /\ is_max (spec_max_of (map snd (price_sampled prices maxPoints)))
                  (map snd (price_sampled prices maxPoints)))
  /\ (forall n, (1 <= n)%nat -> prices <> [] ->
                buildPriceBars fmt prices (of_nat n) <> []).
Proof.
  split; [|split].
  - intro Heq. rewrite Forall_forall in Heq. intros maxPoints b Hb.
    apply buildPriceBars_In in Hb. destruct Hb as (s & Hs & Eb & Hin & _).
    subst b. cbn [height].
    apply in_map_iff in Hin. destruct Hin as (s' & Es' & Hs').
    assert (E1 : snd s == p) by (apply Heq; eapply price_sampled_In; eassumption).
    assert (E2 : spec_max_of (map snd (price_sampled prices maxPoints)) == p).
    { rewrite <- Es'. apply Heq. eapply price_sampled_In; eassumption. }
    rewrite (spec_height_comp E1 E2).
    destruct (Qeq_bool p 0) eqn:Z0.
    + unfold spec_height. now rewrite Z0.
    + rewrite spec_height_full; [reflexivity|]. now apply Qeq_bool_false.
  - intros maxPoints b Hb.
    apply buildPriceBars_In in Hb. destruct Hb as (s & _ & Eb & Hmax).
    subst b. split; [reflexivity|exact Hmax].
  - intros n Hn NE. rewrite buildPriceBars_sampled. cbv zeta.
    rewrite price_sampled_of_nat by assumption.
    intro E. apply map_eq_nil in E. revert E.
    apply spec_last_n_nonempty; [assumption|].
    destruct prices as [|x l]; [congruence|].
    destruct (spec_every_nth_cons (Nat.max 1 (List.length (x :: l) / n)) x l)
      as (r & Er).
    rewrite Er. discriminate.
Qed.

End PriceBarTheorems.

(** C1, counterexample: for the bar count 0 the code keeps a sample although
    the last 0 of the retained samples are none. *)
Lemma buildPriceBars_zero_count_keeps_a_bar :
  List.length (buildPriceBars plain_label [(0, 1)%Q] (of_nat 0)) = 1%nat
  /\ spec_priceBars plain_label [(0, 1)%Q] 0 = [].
Proof. split; reflexivity. Qed.

Lemma buildPriceBars_downsamples_witness :
  buildPriceBars plain_label [(0, 1); (1, 2); (2, 4)]%Q (of_nat 2)
  = spec_priceBars plain_label [(0, 1); (1, 2); (2, 4)]%Q 2
  /\ map height (buildPriceBars plain_label [(0, 1); (1, 9); (2, 3)]%Q (of_nat 1))
     = [Num 100].
Proof.
  split.
  - apply (buildPriceBars_downsamples plain_label
             [(0, 1); (1, 2); (2, 4)]%Q (n := 2)).
    lia.
  - destruct (buildPriceBars_downsamples plain_label
                [(0, 1); (1, 9); (2, 3)]%Q (n := 1)) as (_ & _ & E & _);
      [lia|].
    rewrite E. reflexivity.
Defined.

(** C5, counterexample: one bar for the bar count 0, and the height 200 for
    a series of negative prices. *)
Lemma buildPriceBars_bounds_fail :
  List.length (buildPriceBars plain_label [(0, 1)%Q] (of_nat 0)) = 1%nat
  /\ map height (buildPriceBars plain_label [(0, -2); (1, -1)]%Q (of_nat 12))
     = [Num 200; Num 100].
Proof. split; reflexivity. Qed.

Lemma buildPriceBars_bounds_witness :
  (List.length (buildPriceBars plain_label [(0, 1); (1, 2); (2, 4)]%Q (of_nat 2))
     <= 2)%nat
  /\ Forall (fun b => exists k, height b = of_Z k /\ (0 <= k <= 100)%Z)
            (buildPriceBars plain_label [(0, 1); (1, 2); (2, 4)]%Q (of_nat 2)).
Proof.
  destruct (buildPriceBars_bounds plain_label [(0, 1); (1, 2); (2, 4)]%Q)
    as (H1 & _ & H3).
  split.
  - apply H1. lia.
  - apply H3. repeat constructor; simpl; discriminate.
Defined.

(** C6, counterexample: a series of equal prices 0 gives height 0, not 100. *)
Lemma buildPriceBars_all_zero_height :
  map height (buildPriceBars plain_label [(0, 0); (1, 0)]%Q (of_nat 12))
  = [Num 0; Num 0].
Proof. reflexivity. Qed.

Lemma buildPriceBars_equal_prices_witness :
  Forall (fun s => (snd s == 7)%Q) [(0, 7); (1, 7)]%Q
  /\ Forall (fun b => height b = Num 100)
            (buildPriceBars plain_label [(0, 7); (1, 7)]%Q (of_nat 12))
  /\ Forall (fun b =>
               height b
               = of_Z (spec_height (value b)
                         (spec_max_of
                            (map snd
                                 (price_sampled [(0, 5); (1, 8)]%Q
                                    (of_nat 12))))))
            (buildPriceBars plain_label [(0, 5); (1, 8)]%Q (of_nat 12))
  /\ map height (buildPriceBars plain_label [(0, 5); (1, 8)]%Q (of_nat 12))
     = [Num 63; Num 100]
  /\ buildPriceBars plain_label [(0, 7); (1, 7)]%Q (of_nat 12) <> [].
Proof.
  assert (E : Forall (fun s => (snd s == 7)%Q) [(0, 7); (1, 7)]%Q)
    by (repeat constructor).
  destruct (buildPriceBars_equal_prices plain_label [(0, 7); (1, 7)]%Q 7%Q)
    as (H1 & _ & H3).
  destruct (buildPriceBars_equal_prices plain_label [(0, 5); (1, 8)]%Q 0%Q)
    as (_ & H2 & _).
  split; [exact E|]. split; [|split; [|split]].
  - apply Forall_forall. intros b Hb. exact (H1 E (of_nat 12) b Hb).
  - apply Forall_forall. intros b Hb. exact (proj1 (H2 (of_nat 12) b Hb)).
  - reflexivity.
  - apply H3; [lia|discriminate].
Defined.

(* ================================================================== *)
(** * The green-day ratio *)
(* ================================================================== *)

Section GreenRate.
Local Open Scope Q_scope.

Lemma gt_sub_zero (a b : Q) : gt (sub (Num a) (Num b)) (Num 0) = Qltb b a.
Proof.
  unfold gt, lt, sub, neg, add.
  destruct (Qltb b a) eqn:E.
  - apply Qltb_lt in E. apply Qltb_lt. lra.
  - apply Qltb_ge in E. apply Qltb_ge. lra.
Qed.

Lemma lt_sub_zero (a b : Q) : lt (sub (Num a) (Num b)) (Num 0) = Qltb a b.
Proof.
  unfold lt, sub, neg, add.
  destruct (Qltb a b) eqn:E.
  - apply Qltb_lt in E. apply Qltb_lt. lra.
  - apply Qltb_ge in E. apply Qltb_ge. lra.
Qed.

Lemma Qltb_asym (a b : Q) : Qltb a b = true -> Qltb b a = false.
Proof.
  intro H. apply Qltb_lt in H. apply Qltb_ge. lra.
Qed.

Lemma spec_moves_cons2 (moved : Q -> Q -> bool) (a b : Sample)
  (rest : list Sample) :
  spec_moves moved (a :: b :: rest)
  = ((if moved (snd a) (snd b) then 1 else 0) + spec_moves moved (b :: rest))%nat.
Proof. reflexivity. Qed.

(** The loop from index [|pre| + 1] on, over the samples after [a], adds the
    moves of [a :: rest] to the counters and reads no index out of range. *)
Lemma green_loop (rest pre : list Sample) (a : Sample) (u d : nat) :
  for_range (green_body (pre ++ a :: rest)) (S (List.length pre))
            (List.length rest) (u, d)
  = Normal (u + spec_up (a :: rest), d + spec_down (a :: rest))%nat.
Proof.
  revert pre a u d. induction rest as [|b rest IH]; intros pre a u d.
  - simpl. now rewrite !Nat.add_0_r.
  - cbn [List.length for_range].
    assert (E1 : get (pre ++ a :: b :: rest) (S (List.length pre) - 1) = Some a).
    { unfold get. replace (S (List.length pre) - 1)%nat with (List.length pre) by lia.
      rewrite nth_error_app2 by lia. now rewrite Nat.sub_diag. }
    assert (E2 : get (pre ++ a :: b :: rest) (S (List.length pre)) = Some b).
    { unfold get. rewrite nth_error_app2 by lia.
      replace (S (List.length pre) - List.length pre)%nat with 1%nat by lia.
      reflexivity. }
    unfold green_body at 1. rewrite E1, E2.
    cbn [prop bind fst snd].
    rewrite gt_sub_zero, lt_sub_zero.
    assert (P : pre ++ a :: b :: rest = (pre ++ [a]) ++ b :: rest)
      by (now rewrite <- app_assoc).
    assert (L : S (List.length pre) = List.length (pre ++ [a]))
      by (rewrite length_app; simpl; lia).
    unfold spec_up, spec_down in *.
    rewrite !spec_moves_cons2.
    destruct (Qltb (snd a) (snd b)) eqn:Up.
    + rewrite (Qltb_asym _ _ Up). cbn [bind].
      rewrite P, L, IH. f_equal. f_equal; lia.
    + destruct (Qltb (snd b) (snd a)) eqn:Dn; cbn [bind];
        rewrite P, L, IH; f_equal; f_equal; lia.
Qed.

Lemma spec_moves_bound (l : list Sample) :
  (spec_up l + spec_down l <= List.length l - 1)%nat.
Proof.
  unfold spec_up, spec_down.
  induction l as [|a rest IH]; [simpl; lia|].
  destruct rest as [|b rest]; [simpl; lia|].
  rewrite !spec_moves_cons2. cbn [List.length] in *.
  destruct (Qltb (snd a) (snd b)) eqn:Up.
  - rewrite (Qltb_asym _ _ Up). lia.
  - destruct (Qltb (snd b) (snd a)); lia.
Qed.

Lemma green_rate_value (u d : nat) :
  (if truthy (of_nat (u + d))
   then mul (div (of_nat u) (of_nat (u + d))) (Num 100)
   else Num 0) = spec_green_rate u d.
Proof.
  unfold spec_green_rate. rewrite truthy_of_nat.
  destruct (Nat.eqb_spec (u + d) 0) as [Z0|NZ]; cbn [negb].
  - reflexivity.
  - rewrite div_of_nat by lia. reflexivity.
Qed.

Lemma computeGreenRate_value (prices : list Sample) :
  computeGreenRate prices
  = Normal {| greenRate := spec_green_rate (spec_up prices) (spec_down prices);
              up := spec_up prices;
              down := spec_down prices |}.
Proof.
  unfold computeGreenRate.
  destruct prices as [|a rest]; [reflexivity|].
  destruct rest as [|b rest]; [reflexivity|].
  replace (List.length (a :: b :: rest) <? 2)%nat with false
    by (symmetry; apply Nat.ltb_ge; simpl; lia).
  replace (List.length (a :: b :: rest) - 1)%nat
    with (List.length (b :: rest)) by (simpl; lia).
  pose proof (green_loop (b :: rest) [] a 0 0) as G.
  cbn [app List.length] in G. cbn [List.length]. rewrite G.
  cbn [bind fst snd Nat.add]. now rewrite green_rate_value.
Qed.

(** C2 (amended): the loop of [computeGreenRate] never reads outside the
    series; it counts the consecutive pairs whose later price is strictly
    greater as up and strictly less as down, equal prices as neither, so
    that [up + down <= length - 1] for every non-empty series; the rate is
    [up / (up + down) * 100], and the result is all zero when
    [up + down = 0], in particular for fewer than two samples. *)
Theorem computeGreenRate_counts (prices : list Sample) :
  let u := spec_up prices in
  let d := spec_down prices in
  computeGreenRate prices
    = Normal {| greenRate := spec_green_rate u d; up := u; down := d |}
  /\ (prices <> [] ->
      (Z.of_nat (u + d) <= Z.of_nat (List.length prices) - 1)%Z)
  /\ ((u + d)%nat <> 0%nat ->
      spec_green_rate u d
      = Num (inject_Z (Z.of_nat u) / inject_Z (Z.of_nat (u + d)) * 100))
  /\ ((u + d)%nat = 0%nat ->
      computeGreenRate prices
      = Normal {| greenRate := Num 0; up := 0; down := 0 |})
  /\ ((List.length prices < 2)%nat ->
      computeGreenRate prices
      = Normal {| greenRate := Num 0; up := 0; down := 0 |}).
Proof.
  cbv zeta. split; [apply computeGreenRate_value|]. split; [|split; [|split]].
  - intro NE. pose proof (spec_moves_bound prices) as B.
    destruct prices as [|a rest]; [congruence|].
    cbn [List.length] in *. lia.
  - intro NZ. unfold spec_green_rate.
    apply Nat.eqb_neq in NZ. now rewrite NZ.
  - intro Z0. rewrite computeGreenRate_value.
    unfold spec_green_rate. rewrite Z0. cbn [Nat.eqb].
    f_equal. f_equal; lia.
  - intro Hlen. unfold computeGreenRate.
    apply Nat.ltb_lt in Hlen. now rewrite Hlen.
Qed.

End GreenRate.

(** C2, counterexample: the empty series has [up + down = 0], which is
    not at most [length - 1 = -1]. *)
Lemma computeGreenRate_empty_series_bound :
  computeGreenRate [] = Normal {| greenRate := Num 0; up := 0; down := 0 |}
  /\ ~ (Z.of_nat (0 + 0) <= Z.of_nat (List.length (@nil Sample)) - 1)%Z.
Proof. split; [reflexivity|simpl; lia]. Qed.

Lemma computeGreenRate_counts_witness :
  computeGreenRate [(0, 100); (1, 110); (2, 105); (3, 105); (4, 120)]%Q
  = Normal {| greenRate := Num (inject_Z 2 / inject_Z 3 * 100)%Q;
              up := 2; down := 1 |}
  /\ (Z.of_nat (2 + 1) <= 5 - 1)%Z
  /\ computeGreenRate [(0, 100)%Q]
     = Normal {| greenRate := Num 0; up := 0; down := 0 |}.
Proof.
  destruct (computeGreenRate_counts
              [(0, 100); (1, 110); (2, 105); (3, 105); (4, 120)]%Q)
    as (H1 & H2 & _).
  split; [exact H1|]. split.
  - apply H2. discriminate.
  - apply (computeGreenRate_counts [(0, 100)%Q]). simpl. lia.
Defined.

(* ================================================================== *)
(** * Volume bars and market share *)
(* ================================================================== *)

Section Aggregators.
Local Open Scope Q_scope.

Lemma or_else_zero (q : Q) : or_else (Num q) (Num 0) = Num (zero_or q).
Proof.
  unfold or_else, truthy, zero_or. now destruct (Qeq_bool q 0).
Qed.

Lemma zero_or_eq (q : Q) : zero_or q == q.
Proof.
  unfold zero_or. destruct (Qeq_bool q 0) eqn:E; [|reflexivity].
  apply Qeq_bool_iff in E. now symmetry.
Qed.

Lemma is_max_map_eq (f : Q -> Q) (l : list Q) (m m' : Q) :
  (forall q, f q == q) -> is_max m (map f l) -> is_max m' l -> m == m'.
Proof.
  intros Hf [I1 F1] [I2 F2]. rewrite Forall_forall in F1, F2.
  apply in_map_iff in I1. destruct I1 as (q & Eq & Hq).
  apply Qle_antisym.
  - rewrite <- Eq, Hf. now apply F2.
  - rewrite <- (Hf m'). apply F1. now apply in_map.
Qed.

Lemma fold_left_map (A B C : Type) (f : A -> C -> A) (g : B -> C)
  (l : list B) (a : A) :
  fold_left (fun acc x => f acc (g x)) l a = fold_left f (map g l) a.
Proof.
  revert a. induction l as [|x l IH]; intro a; simpl; [reflexivity|apply IH].
Qed.

Lemma fold_add_Num (qs : list Q) (a : Q) :
  exists s, fold_left add (map Num qs) (Num a) = Num s /\ s == a + spec_sum qs.
Proof.
  revert a. induction qs as [|q qs IH]; intro a; simpl.
  - exists a. split; [reflexivity|]. unfold spec_sum. simpl. lra.
  - destruct (IH (a + q)) as (s & Hs & Es). exists s. split; [exact Hs|].
    rewrite Es. unfold spec_sum. simpl. lra.
Qed.

Lemma spec_sum_map_eq (A : Type) (f g : A -> Q) (l : list A) :
  (forall x, f x == g x) -> spec_sum (map f l) == spec_sum (map g l).
Proof.
  intro E. unfold spec_sum. induction l as [|x l IH]; simpl.
  - reflexivity.
  - now rewrite IH, E.
Qed.


(** The volume bars, one per coin, each against the largest volume. *)
Lemma buildVolumeBars_value (coins : list MarketCoin) :
  buildVolumeBars coins
  = map (fun c => {| label := toUpperCase (symbol c);
                     value := total_volume c;
                     height := of_Z (spec_height (total_volume c)
                                 (spec_max_of (map total_volume coins))) |})
        coins.
Proof.
  unfold buildVolumeBars. rewrite truthy_of_nat, negb_involutive.
  destruct coins as [|c coins]; [reflexivity|].
  cbn [List.length Nat.eqb]. cbv zeta.
  assert (V : map (fun coin => or_else (Num (total_volume coin)) (Num 0))
                  (c :: coins)
              = map Num (map zero_or (map total_volume (c :: coins)))).
  { rewrite !map_map. apply map_ext. intro x. apply or_else_zero. }
  rewrite V.
  destruct (Math_max_Num (zero_or (total_volume c))
              (map zero_or (map total_volume coins))) as (m & Hm & Hmax).
  change (map zero_or (map total_volume (c :: coins)))
    with (zero_or (total_volume c) :: map zero_or (map total_volume coins)).
  rewrite Hm. apply map_ext. intro x. f_equal.
  apply bar_height_spec.
  change (zero_or (total_volume c) :: map zero_or (map total_volume coins))
    with (map zero_or (map total_volume (c :: coins))) in Hmax.
  eapply is_max_map_eq; [apply zero_or_eq|exact Hmax|].
  apply spec_maximum_is_max.
Qed.

Lemma buildVolumeBars_zero (coins : list MarketCoin) :
  Forall (fun c => total_volume c == 0) coins ->
  Forall (fun b => height b = Num 0) (buildVolumeBars coins).
Proof.
  intro Hz. rewrite buildVolumeBars_value.
  apply Forall_forall. intros b Hb.
  apply in_map_iff in Hb. destruct Hb as (c & Eb & Hc). subst b.
  cbn [height].
  destruct coins as [|c0 cs]; [destruct Hc|].
  destruct (spec_maximum_is_max (total_volume c0) (map total_volume cs))
    as [Hin _].
  change (In (spec_max_of (map total_volume (c0 :: cs)))
             (map total_volume (c0 :: cs))) in Hin.
  apply in_map_iff in Hin. destruct Hin as (c' & Ec' & Hc').
  rewrite Forall_forall in Hz.
  assert (M0 : spec_max_of (map total_volume (c0 :: cs)) == 0)
    by (rewrite <- Ec'; now apply Hz).
  unfold spec_height. apply Qeq_bool_iff in M0. now rewrite M0.
Qed.

End Aggregators.

Section AggregatorTheorems.
Local Open Scope Q_scope.

(** C7 (amended): one bar per coin, in order, none excluded; each height is
    the coin's volume normalised against the largest volume of the same
    list; a coin holding the largest volume has height exactly 100 when that
    volume is positive; when all volumes are 0 every height is 0; when no
    volume is negative every height lies in [0, 100]. *)
Theorem buildVolumeBars_normalised (coins : list MarketCoin) :
  let M := spec_max_of (map total_volume coins) in
  Forall2 (fun c b =>
             label b = toUpperCase (symbol c)
             /\ value b = total_volume c
             /\ height b = of_Z (spec_height (total_volume c) M)
             /\ (total_volume c == M -> 0 < M -> height b = Num 100))
          coins (buildVolumeBars coins)
  /\ (coins <> [] -> is_max M (map total_volume coins))
  /\ (Forall (fun c => total_volume c == 0) coins ->
      Forall (fun b => height b = Num 0) (buildVolumeBars coins))
  /\ (Forall (fun c => 0 <= total_volume c) coins ->
      Forall (fun b => exists k, height b = of_Z k /\ (0 <= k <= 100)%Z)
             (buildVolumeBars coins)).
Proof.
  cbv zeta.
  assert (HM : coins <> [] ->
               is_max (spec_max_of (map total_volume coins))
                      (map total_volume coins)).
  { intro NE. destruct coins as [|c cs]; [congruence|].
    apply spec_maximum_is_max. }
  split; [|split; [exact HM|split; [apply buildVolumeBars_zero|]]].
  - rewrite buildVolumeBars_value.
    generalize (spec_max_of (map total_volume coins)) as M. intro M.
    clear HM. induction coins as [|c cs IH]; simpl; constructor.
    + cbn [label value height]. repeat split.
      intros E P. rewrite (spec_height_comp E (Qeq_refl M)).
      rewrite spec_height_full; [reflexivity|]. lra.
    + exact IH.
  - intro Hpos. rewrite buildVolumeBars_value.
    apply Forall_forall. intros b Hb.
    apply in_map_iff in Hb. destruct Hb as (c & Eb & Hc). subst b.
    cbn [height]. eexists. split; [reflexivity|].
    assert (NE : coins <> []) by (intro E; subst coins; destruct Hc).
    destruct (HM NE) as [_ Hall]. rewrite Forall_forall in Hall, Hpos.
    apply spec_height_range; [now apply Hpos|].
    apply Hall. now apply in_map.
Qed.

Lemma top5_firstn (coins : list MarketCoin) : top5 coins = firstn 5 coins.
Proof.
  unfold top5. change (Num 5) with (of_nat 5). apply slice_0_of_nat.
Qed.

Lemma totalTop5Cap_value (coins : list MarketCoin) :
  exists t, totalTop5Cap coins = Num t
            /\ t == spec_sum (map market_cap (firstn 5 coins)).
Proof.
  unfold totalTop5Cap. rewrite top5_firstn.
  rewrite (fold_left_map add
             (fun coin => or_else (Num (market_cap coin)) (Num 0))).
  assert (V : map (fun coin => or_else (Num (market_cap coin)) (Num 0))
                  (firstn 5 coins)
              = map Num (map zero_or (map market_cap (firstn 5 coins)))).
  { rewrite !map_map. apply map_ext. intro x. apply or_else_zero. }
  rewrite V.
  destruct (fold_add_Num (map zero_or (map market_cap (firstn 5 coins))) 0)
    as (s & Hs & Es).
  exists s. split; [exact Hs|]. rewrite Es, Qplus_0_l.
  rewrite map_map. apply spec_sum_map_eq. intro x. apply zero_or_eq.
Qed.

(** The shares, given the value of the total. *)
Lemma marketShare_value (coins : list MarketCoin) (t : Q) :
  totalTop5Cap coins = Num t ->
  marketShare coins
  = map (fun c => {| item_id := id c; item_name := name c;
                     share := if Qeq_bool t 0 then Num 0
                              else Num (market_cap c / t * 100) |})
        (firstn 5 coins).
Proof.
  intro Ht. unfold marketShare. rewrite Ht, top5_firstn. cbv zeta.
  apply map_ext. intro c. f_equal. unfold truthy, div.
  now destruct (Qeq_bool t 0).
Qed.




End AggregatorTheorems.

(** C7, counterexample: a negative volume gives a height below 0. *)
Lemma buildVolumeBars_negative_height :
  map height (buildVolumeBars [sample_coin "a" 1 (-50) None;
                               sample_coin "b" 1 100 None])
  = [Num (-50); Num 100].
Proof. reflexivity. Qed.

Lemma buildVolumeBars_normalised_witness :
  Forall (fun b => exists k, height b = of_Z k /\ (0 <= k <= 100)%Z)
         (buildVolumeBars [sample_coin "a" 1 50 None;
                           sample_coin "b" 1 100 None])
  /\ Forall (fun b => height b = Num 0)
            (buildVolumeBars [sample_coin "a" 1 0 None;
                              sample_coin "b" 1 0 None]).
Proof.
  split.
  - apply (buildVolumeBars_normalised
             [sample_coin "a" 1 50 None; sample_coin "b" 1 100 None]).
    repeat constructor; simpl; discriminate.
  - apply (buildVolumeBars_normalised
             [sample_coin "a" 1 0 None; sample_coin "b" 1 0 None]).
    repeat constructor.
Defined.

(** The decoding of numbers: integers decode to themselves, and 0.1 to the
    double next to it, 7205759403792794 * 2^-56. *)
Lemma of_Q_decodes :
  F64.of_Q 3 = F64.of_Z 3
  /\ F64.of_Q (inject_Z (-10000000000000000)) = F64.of_Z (-10000000000000000)
  /\ F64.of_Q (1 # 10) = S754_finite false 7205759403792794 (-56)
  /\ F64.of_Q (inject_Z (2 ^ 1023)) = S754_finite false (2 ^ 52) 971.
Proof. vm_compute. repeat split. Qed.



(* ================================================================== *)
(** * Sorting: the head of a sorted array; gainer and loser *)
(* ================================================================== *)

Section SortHead.
Local Open Scope Q_scope.
Variable A : Type.
Variable cmp : A -> A -> num.
Variable rank : A -> Q.

(** The comparator puts [x] behind [y] exactly when [y] ranks higher. *)
Hypothesis cmp_rank :
  forall x y, gt (cmp x y) (Num 0) = Qltb (rank x) (rank y).

(** The first element of the sorted array is the first element of the
    input with the highest rank. *)
Lemma sort_head (l : list A) :
  l <> [] ->
  exists g pre post,
    l = pre ++ g :: post
    /\ get (sort cmp l) 0 = Some g
    /\ Forall (fun c => rank c < rank g) pre
    /\ Forall (fun c => rank c <= rank g) post.
Proof.
  induction l as [|x l IH]; [congruence|]. intros _.
  destruct l as [|y l].
  - exists x, [], []. simpl. repeat split; constructor.
  - destruct IH as (g & pre & post & El & Hg & Hpre & Hpost); [discriminate|].
    change (sort cmp (x :: y :: l)) with (insert_by cmp x (sort cmp (y :: l))).
    destruct (sort cmp (y :: l)) as [|h r] eqn:S; [discriminate|].
    simpl in Hg. injection Hg as ->.
    cbn [insert_by]. rewrite cmp_rank.
    destruct (Qltb (rank x) (rank g)) eqn:E.
    + apply Qltb_lt in E.
      exists g, (x :: pre), post. rewrite El. repeat split; auto.
    + apply Qltb_ge in E.
      exists x, [], (y :: l). repeat split; [constructor|].
      rewrite El. apply Forall_app. split.
      * eapply Forall_impl; [|exact Hpre]. cbv beta. intros c Hc. lra.
      * constructor; [exact E|].
        eapply Forall_impl; [|exact Hpost]. cbv beta. intros c Hc. lra.
Qed.

End SortHead.

Lemma sort_nil (A : Type) (cmp : A -> A -> num) : sort cmp [] = [].
Proof. reflexivity. Qed.

(** A split of a filtered list lifts to a split of the list. *)
Lemma filter_split (A : Type) (f : A -> bool) (l pre post : list A) (g : A) :
  filter f l = pre ++ g :: post ->
  exists pre' post',
    l = pre' ++ g :: post' /\ filter f pre' = pre /\ filter f post' = post.
Proof.
  revert pre. induction l as [|x l IH]; intros pre E; simpl in E.
  - destruct pre; discriminate.
  - destruct (f x) eqn:Fx.
    + destruct pre as [|p pre]; simpl in E; injection E as -> E.
      * exists [], l. simpl. auto.
      * destruct (IH _ E) as (pre' & post' & El & Ep & Eq).
        exists (p :: pre'), post'. simpl. rewrite Fx, Ep, Eq, El. auto.
    + destruct (IH _ E) as (pre' & post' & El & Ep & Eq).
      exists (x :: pre'), post'. simpl. rewrite Fx, Ep, Eq, El. auto.
Qed.

Section GainerLoser.
Local Open Scope Q_scope.

Lemma gainer_cmp (x y : MarketCoin) :
  gt (sub (change_or_0 y) (change_or_0 x)) (Num 0)
  = Qltb (change_value x) (change_value y).
Proof. apply gt_sub_zero. Qed.

Lemma loser_cmp (x y : MarketCoin) :
  gt (sub (change_or_0 x) (change_or_0 y)) (Num 0)
  = Qltb (- change_value x) (- change_value y).
Proof.
  unfold change_or_0. rewrite gt_sub_zero. fold (change_value x) (change_value y).
  destruct (Qltb (change_value y) (change_value x)) eqn:E; symmetry.
  - apply Qltb_lt in E. apply Qltb_lt. lra.
  - apply Qltb_ge in E. apply Qltb_ge. lra.
Qed.

Lemma coinsWithChange_nil (coins : list MarketCoin) :
  Forall (fun c => price_change_percentage_24h c = None) coins ->
  coinsWithChange coins = [].
Proof.
  unfold coinsWithChange. induction 1 as [|c cs Hc _ IH]; simpl.
  - reflexivity.
  - unfold has_change. now rewrite Hc.
Qed.

Lemma coinsWithChange_nonempty (coins : list MarketCoin) :
  Exists (fun c => price_change_percentage_24h c <> None) coins ->
  coinsWithChange coins <> [].
Proof.
  intros H E. apply Exists_exists in H. destruct H as (c & Hc & Hn).
  assert (I : In c (coinsWithChange coins)).
  { apply filter_In. split; [exact Hc|]. unfold has_change.
    destruct (price_change_percentage_24h c); congruence. }
  rewrite E in I. destruct I.
Qed.

(** The head of the coins with a change sorted by a comparator of rank
    [rank]: a coin of the input with a change, ranked highest among the
    coins with a change, and the first such coin in input order. *)
Lemma selection_head (cmp : MarketCoin -> MarketCoin -> num)
  (rank : MarketCoin -> Q) (coins : list MarketCoin) :
  (forall x y, gt (cmp x y) (Num 0) = Qltb (rank x) (rank y)) ->
  coinsWithChange coins <> [] ->
  exists g pre post,
    get (sort cmp (coinsWithChange coins)) 0 = Some g
    /\ coins = pre ++ g :: post
    /\ has_change g = true
    /\ Forall (fun c => has_change c = true -> rank c < rank g) pre
    /\ Forall (fun c => has_change c = true -> rank c <= rank g) post.
Proof.
  intros Hcmp NE.
  destruct (sort_head cmp rank Hcmp NE) as (g & p & q & El & Hg & Hp & Hq).
  unfold coinsWithChange in El.
  destruct (@filter_split _ _ _ _ _ _ El) as (pre & post & Ec & Ep & Eq).
  exists g, pre, post. split; [exact Hg|]. split; [exact Ec|].
  assert (Ig : In g (filter has_change coins))
    by (rewrite El; apply in_or_app; right; now left).
  apply filter_In in Ig. split; [apply Ig|].
  rewrite Forall_forall in Hp, Hq. split; apply Forall_forall; intros c Hc Fc.
  - apply Hp. rewrite <- Ep. apply filter_In. auto.
  - apply Hq. rewrite <- Eq. apply filter_In. auto.
Qed.

End GainerLoser.

Section GainerLoserTheorem.
Local Open Scope Q_scope.

Lemma has_change_Some (c : MarketCoin) (v : Q) :
  price_change_percentage_24h c = Some v ->
  has_change c = true /\ change_value c = v.
Proof.
  intro E. unfold has_change, change_value. now rewrite E.
Qed.

Lemma has_change_value (c : MarketCoin) :
  has_change c = true ->
  price_change_percentage_24h c = Some (change_value c).
Proof.
  unfold has_change, change_value.
  destruct (price_change_percentage_24h c); [reflexivity|discriminate].
Qed.

Lemma no_change_selection (coins : list MarketCoin) :
  Forall (fun c => price_change_percentage_24h c = None) coins ->
  topGainer coins = None /\ topLoser coins = None
  /\ avgChange24h coins = Num 0.
Proof.
  intro Hnone. apply coinsWithChange_nil in Hnone.
  unfold topGainer, topLoser, avgChange24h. rewrite Hnone. now simpl.
Qed.

(** C4: only coins with a non-null 24h change are considered; the gainer's
    change is at least, and the loser's at most, every non-null change of
    the input; among equal changes the first coin in input order is
    selected; when no coin has a non-null change both are null and the
    average change is 0. *)
Theorem gainer_loser_selection (coins : list MarketCoin) :
  (Forall (fun c => price_change_percentage_24h c = None) coins ->
   topGainer coins = None /\ topLoser coins = None
   /\ avgChange24h coins = Num 0)
  /\ (Exists (fun c => price_change_percentage_24h c <> None) coins ->
      exists g l vg vl,
        topGainer coins = Some g /\ topLoser coins = Some l
        /\ price_change_percentage_24h g = Some vg
        /\ price_change_percentage_24h l = Some vl
        /\ (forall c v, In c coins ->
                        price_change_percentage_24h c = Some v ->
                        vl <= v <= vg)
        /\ (exists pre post,
               coins = pre ++ g :: post
               /\ forall c v, In c pre ->
                              price_change_percentage_24h c = Some v -> v < vg)
        /\ (exists pre post,
               coins = pre ++ l :: post
               /\ forall c v, In c pre ->
                              price_change_percentage_24h c = Some v -> vl < v)).
Proof.
  split.
  - apply no_change_selection.
  - intro Hsome. apply coinsWithChange_nonempty in Hsome.
    destruct (@selection_head
                (fun a b => sub (change_or_0 b) (change_or_0 a))
                change_value coins gainer_cmp Hsome)
      as (g & p1 & q1 & Hg & E1 & Fg & Hp1 & Hq1).
    destruct (@selection_head
                (fun a b => sub (change_or_0 a) (change_or_0 b))
                (fun c => - change_value c) coins loser_cmp Hsome)
      as (l & p2 & q2 & Hl & E2 & Fl & Hp2 & Hq2).
    rewrite Forall_forall in Hp1, Hq1, Hp2, Hq2.
    exists g, l, (change_value g), (change_value l).
    split; [exact Hg|]. split; [exact Hl|].
    split; [now apply has_change_value|]. split; [now apply has_change_value|].
    split; [|split].
    + intros c v Hc Ev. destruct (has_change_Some _ Ev) as [Fc <-]. split.
      * rewrite E2 in Hc. apply in_app_or in Hc.
        destruct Hc as [Hc|[->|Hc]].
        -- specialize (Hp2 c Hc Fc). cbv beta in Hp2. lra.
        -- lra.
        -- specialize (Hq2 c Hc Fc). cbv beta in Hq2. lra.
      * rewrite E1 in Hc. apply in_app_or in Hc.
        destruct Hc as [Hc|[->|Hc]].
        -- specialize (Hp1 c Hc Fc). cbv beta in Hp1. lra.
        -- lra.
        -- specialize (Hq1 c Hc Fc). cbv beta in Hq1. lra.
    + exists p1, q1. split; [exact E1|]. intros c v Hc Ev.
      destruct (has_change_Some _ Ev) as [Fc <-]. now apply Hp1.
    + exists p2, q2. split; [exact E2|]. intros c v Hc Ev.
      destruct (has_change_Some _ Ev) as [Fc <-].
      specialize (Hp2 c Hc Fc). cbv beta in Hp2. lra.
Qed.

End GainerLoserTheorem.

Lemma gainer_loser_selection_witness :
  (topGainer [sample_coin "a" 1 1 None] = None
   /\ topLoser [sample_coin "a" 1 1 None] = None
   /\ avgChange24h [sample_coin "a" 1 1 None] = Num 0)
  /\ exists g l,
       topGainer [sample_coin "a" 1 1 (Some 2); sample_coin "b" 1 1 None;
                  sample_coin "c" 1 1 (Some 5); sample_coin "d" 1 1 (Some 5);
                  sample_coin "e" 1 1 (Some (-1))]%Q = Some g
       /\ topLoser [sample_coin "a" 1 1 (Some 2); sample_coin "b" 1 1 None;
                    sample_coin "c" 1 1 (Some 5); sample_coin "d" 1 1 (Some 5);
                    sample_coin "e" 1 1 (Some (-1))]%Q = Some l.
Proof.
  split.
  - apply (gainer_loser_selection [sample_coin "a" 1 1 None]).
    repeat constructor.
  - destruct (proj2 (gainer_loser_selection
                       [sample_coin "a" 1 1 (Some 2); sample_coin "b" 1 1 None;
                        sample_coin "c" 1 1 (Some 5); sample_coin "d" 1 1 (Some 5);
                        sample_coin "e" 1 1 (Some (-1))]%Q))
      as (g & l & _ & _ & Hg & Hl & _).
    + apply Exists_cons_hd. discriminate.
    + exists g, l. split; assumption.
Defined.

(* ================================================================== *)
(** * Sorting: permutation and order; the closest approaches *)
(* ================================================================== *)

Section SortFacts.
Variable A : Type.
Variable cmp : A -> A -> num.

Lemma insert_by_perm (x : A) (l : list A) :
  Permutation (x :: l) (insert_by cmp x l).
Proof.
  induction l as [|y l IH]; cbn [insert_by].
  - apply Permutation_refl.
  - destruct (gt (cmp x y) (Num 0)).
    + eapply perm_trans; [apply perm_swap|]. now apply perm_skip.
    + apply Permutation_refl.
Qed.

(** The sorted array is a rearrangement of the array, for any comparator. *)
Lemma sort_perm (l : list A) : Permutation l (sort cmp l).
Proof.
  induction l as [|x l IH]; simpl.
  - apply perm_nil.
  - eapply perm_trans; [|apply insert_by_perm]. now apply perm_skip.
Qed.

End SortFacts.

Section SortAdjacent.
Variable A : Type.
Variable cmp : A -> A -> num.

(** A comparator is antisymmetric in sign when [cmp x y > 0] excludes
    [cmp y x > 0]. *)
Hypothesis cmp_asym :
  forall x y, gt (cmp x y) (Num 0) = true -> gt (cmp y x) (Num 0) = false.

Lemma insert_by_adjacent (x : A) (l : list A) :
  Sorted (fun a b => gt (cmp a b) (Num 0) = false) l ->
  Sorted (fun a b => gt (cmp a b) (Num 0) = false) (insert_by cmp x l).
Proof.
  intro Hs. induction Hs as [|y l Hs IH Hy]; cbn [insert_by].
  - constructor; constructor.
  - destruct (gt (cmp x y) (Num 0)) eqn:E.
    + constructor; [exact IH|].
      destruct l as [|z l]; cbn [insert_by].
      * constructor. now apply cmp_asym.
      * inversion Hy as [|? ? Hyz]; subst.
        destruct (gt (cmp x z) (Num 0)); constructor;
          [exact Hyz|now apply cmp_asym].
    + constructor; [now constructor|]. constructor. exact E.
Qed.

(** In the sorted array no element is followed by one that the comparator
    puts strictly before it. *)
Lemma sort_adjacent (l : list A) :
  Sorted (fun a b => gt (cmp a b) (Num 0) = false) (sort cmp l).
Proof.
  induction l as [|x l IH]; simpl.
  - constructor.
  - now apply insert_by_adjacent.
Qed.

End SortAdjacent.

Lemma gt_sub_asym (x y : num) :
  gt (sub x y) (Num 0) = true -> gt (sub y x) (Num 0) = false.
Proof.
  destruct x as [a| | |], y as [b| | |]; intro H;
    try reflexivity; try (cbv in H; discriminate).
  rewrite gt_sub_zero in *. now apply Qltb_asym.
Qed.

Section SortByKey.
Local Open Scope Q_scope.
Variable A : Type.
Variable key : A -> num.

Lemma num_le_trans (x y z : num) : num_le x y -> num_le y z -> num_le x z.
Proof.
  destruct x, y, z; simpl; try tauto. apply Qle_trans.
Qed.

(** For numbers other than NaN, [x - y > 0] fails exactly when [x <= y],
    and when it holds [y <= x]. *)
Lemma gt_sub_false (x y : num) :
  x <> NaN -> y <> NaN -> gt (sub x y) (Num 0) = false -> num_le x y.
Proof.
  destruct x as [a| | |], y as [b| | |]; intros Hx Hy H;
    try congruence; try exact I; try (cbv in H; discriminate).
  rewrite gt_sub_zero in H. now apply Qltb_ge in H.
Qed.

Lemma gt_sub_true (x y : num) :
  gt (sub x y) (Num 0) = true -> num_le y x.
Proof.
  destruct x as [a| | |], y as [b| | |]; intro H;
    try exact I; try (cbv in H; discriminate).
  rewrite gt_sub_zero in H. apply Qltb_lt in H. now apply Qlt_le_weak.
Qed.

Lemma insert_by_sorted (x : A) (l : list A) :
  key x <> NaN -> Forall (fun a => key a <> NaN) l ->
  StronglySorted (fun a b => num_le (key a) (key b)) l ->
  StronglySorted (fun a b => num_le (key a) (key b))
                 (insert_by (fun a b => sub (key a) (key b)) x l).
Proof.
  intros Hx Hl Hs. induction Hs as [|y l Hs IH Hy]; cbn [insert_by].
  - constructor; constructor.
  - inversion Hl as [|? ? Hky Hl']; subst.
    destruct (gt (sub (key x) (key y)) (Num 0)) eqn:E.
    + constructor; [now apply IH|].
      apply (Permutation_Forall
               (insert_by_perm (fun a b => sub (key a) (key b)) x l)).
      constructor; [|exact Hy]. now apply gt_sub_true.
    + assert (Lxy : num_le (key x) (key y)) by (now apply gt_sub_false).
      constructor; [now constructor|].
      constructor; [exact Lxy|].
      eapply Forall_impl; [|exact Hy]. cbv beta. intros z Hz.
      eapply num_le_trans; eassumption.
Qed.

(** Sorting by the difference of keys, none of them NaN, orders the array
    by key. *)
Lemma sort_sorted (l : list A) :
  Forall (fun a => key a <> NaN) l ->
  StronglySorted (fun a b => num_le (key a) (key b))
                 (sort (fun a b => sub (key a) (key b)) l).
Proof.
  induction 1 as [|x l Hx Hl IH]; simpl.
  - constructor.
  - apply insert_by_sorted; [exact Hx| |exact IH].
    apply (Permutation_Forall (sort_perm (fun a b => sub (key a) (key b)) l)).
    exact Hl.
Qed.

End SortByKey.

Section ClosestNeos.
Variable Number : string -> num.

Lemma enriched_spec (neos : list DatedNeo) :
  filter_Boolean (map (enrich Number) neos) = spec_enriched Number neos.
Proof.
  unfold spec_enriched. induction neos as [|n neos IH]; simpl.
  - reflexivity.
  - unfold enrich at 1, get.
    destruct (close_approach_data (neo n)) as [|a rest]; simpl; now rewrite IH.
Qed.

(** C8 (amended): the ranking takes from each object its first
    close-approach record only, leaves out the objects without one, reads
    miss distance and velocity with [Number], and returns the first [K] of
    these records sorted by the difference of their miss distances: a
    rearrangement of them in which the difference of the miss distances of
    two neighbours is never positive and which, when every miss distance is
    a number, is in ascending order of miss distance. *)
Theorem pickClosestNeos_ranking (neos : list DatedNeo) (K : nat) :
  let enriched := spec_enriched Number neos in
  let ranked := sort (fun a b => sub (missKm a) (missKm b)) enriched in
  pickClosestNeos Number neos (of_nat K) = firstn K ranked
  /\ Permutation enriched ranked
  /\ Sorted (fun a b => gt (sub (missKm a) (missKm b)) (Num 0) = false)
            ranked
  /\ (Forall (fun e => missKm e <> NaN) enriched ->
      StronglySorted (fun a b => num_le (missKm a) (missKm b)) ranked).
Proof.
  cbv zeta. split; [|split; [|split]].
  - unfold pickClosestNeos. rewrite enriched_spec. apply slice_0_of_nat.
  - apply sort_perm.
  - apply (sort_adjacent (fun a b => sub (missKm a) (missKm b))).
    intros x y. apply gt_sub_asym.
  - intro H. now apply sort_sorted.
Qed.

End ClosestNeos.

(** C8, counterexample: a miss distance that is not numeric is read as NaN,
    compares equal to every other and stays first, before a smaller miss
    distance. *)
Lemma pickClosestNeos_unparsable_distance :
  map missKm
      (pickClosestNeos Number_of_digits
         [sample_neo "a" ["abc"]; sample_neo "b" ["1"]]%string (of_nat 2))
  = [NaN; of_Z 1]
  /\ map (fun c => neo_id (c_neo c))
         (pickClosestNeos Number_of_digits
            [sample_neo "a" ["abc"]; sample_neo "b" ["1"]]%string (of_nat 1))
     = ["a"%string]
  /\ ~ StronglySorted (fun a b => num_le (missKm a) (missKm b))
        (pickClosestNeos Number_of_digits
           [sample_neo "a" ["abc"]; sample_neo "b" ["1"]]%string (of_nat 2)).
Proof.
  split; [reflexivity|]. split; [reflexivity|].
  intro H. inversion H as [|? ? _ Hall]; subst.
  inversion Hall as [|? ? Hle _]; subst. exact Hle.
Qed.

Lemma pickClosestNeos_ranking_witness :
  map missKm
      (pickClosestNeos Number_of_digits
         [sample_neo "a" ["30"; "1"]; sample_neo "b" [];
          sample_neo "c" ["10"]; sample_neo "d" ["20"]]%string
         (of_nat 2))
  = [of_Z 10; of_Z 20]
  /\ StronglySorted (fun a b => num_le (missKm a) (missKm b))
       (sort (fun a b => sub (missKm a) (missKm b))
          (spec_enriched Number_of_digits
             [sample_neo "a" ["30"; "1"]; sample_neo "b" [];
              sample_neo "c" ["10"]; sample_neo "d" ["20"]]%string)).
Proof.
  split.
  - rewrite (proj1 (pickClosestNeos_ranking Number_of_digits
               [sample_neo "a" ["30"; "1"]; sample_neo "b" [];
                sample_neo "c" ["10"]; sample_neo "d" ["20"]]%string 2)).
    reflexivity.
  - apply (pickClosestNeos_ranking Number_of_digits
             [sample_neo "a" ["30"; "1"]; sample_neo "b" [];
              sample_neo "c" ["10"]; sample_neo "d" ["20"]]%string 2).
    repeat constructor; discriminate.
Defined.

(* ================================================================== *)
(** * Grouping the solar flares by day *)
(* ================================================================== *)

Section FlareMap.
Local Open Scope nat_scope.

Lemma Map_set_keys_In (m : Map) (k : string) (v : nat) (d : string) :
  In d (keys (Map_set m k v)) <-> d = k \/ In d (keys m).
Proof.
  unfold keys. induction m as [|[k' v'] m IH]; simpl.
  - intuition.
  - destruct (String.eqb_spec k' k) as [->|NE]; simpl.
    + intuition.
    + rewrite IH. intuition.
Qed.

Lemma Map_set_NoDup (m : Map) (k : string) (v : nat) :
  NoDup (keys m) -> NoDup (keys (Map_set m k v)).
Proof.
  induction m as [|[k' v'] m IH]; simpl; intro H.
  - constructor; [intros []|constructor].
  - inversion H as [|? ? Hn Hm]; subst.
    destruct (String.eqb_spec k' k) as [->|NE]; simpl.
    + now constructor.
    + constructor; [|now apply IH].
      intro I. apply Map_set_keys_In in I. destruct I as [E|I]; auto.
Qed.

(** Counting one more event for the day [k]. *)
Lemma Map_set_sum (m : Map) (k : string) :
  list_sum (counts (Map_set m k (nullish (Map_get m k) 0 + 1)))
  = S (list_sum (counts m)).
Proof.
  unfold counts. induction m as [|[k' v'] m IH]; simpl.
  - reflexivity.
  - destruct (String.eqb_spec k' k) as [->|NE]; simpl.
    + lia.
    + rewrite IH. lia.
Qed.

Lemma Map_set_positive (m : Map) (k : string) :
  Forall (fun c => 1 <= c) (counts m) ->
  Forall (fun c => 1 <= c)
         (counts (Map_set m k (nullish (Map_get m k) 0 + 1))).
Proof.
  unfold counts. induction m as [|[k' v'] m IH]; simpl; intro H.
  - constructor; [lia|constructor].
  - inversion H as [|? ? Hv Hm]; subst.
    destruct (String.eqb_spec k' k) as [->|NE]; simpl.
    + constructor; [lia|exact Hm].
    + constructor; [exact Hv|now apply IH].
Qed.

Lemma flare_map_snoc (flares : list SolarFlare) (f : SolarFlare) :
  flare_map (flares ++ [f])
  = Map_set (flare_map flares) (spec_day f)
            (nullish (Map_get (flare_map flares) (spec_day f)) 0 + 1).
Proof.
  unfold flare_map. now rewrite fold_left_app.
Qed.

(** The map of the loop: distinct days, the days of the events, positive
    counts that add up to the number of events. *)
Lemma flare_map_invariant (flares : list SolarFlare) :
  NoDup (keys (flare_map flares))
  /\ (forall d, In d (keys (flare_map flares)) <-> In d (map spec_day flares))
  /\ Forall (fun c => 1 <= c) (counts (flare_map flares))
  /\ list_sum (counts (flare_map flares)) = List.length flares.
Proof.
  induction flares as [|f flares IH] using rev_ind.
  - repeat split; simpl; try constructor; intros [].
  - destruct IH as (Hnd & Hin & Hpos & Hsum).
    rewrite flare_map_snoc. repeat split.
    + now apply Map_set_NoDup.
    + rewrite Map_set_keys_In, Hin, map_app, in_app_iff. simpl. intuition.
    + rewrite Map_set_keys_In, Hin, map_app, in_app_iff. simpl. intuition.
    + now apply Map_set_positive.
    + rewrite Map_set_sum, Hsum, length_app. simpl. lia.
Qed.

Lemma list_sum_perm (l l' : list nat) :
  Permutation l l' -> list_sum l = list_sum l'.
Proof.
  induction 1; simpl; lia.
Qed.

Variable localeCompare : string -> string -> num.

Lemma groupFlaresByDay_perm (flares : list SolarFlare) :
  Permutation
    (map (fun e => {| f_date := fst e; f_count := snd e |}) (flare_map flares))
    (groupFlaresByDay localeCompare flares).
Proof. apply sort_perm. Qed.

(** C10: the counts of the days add up to the number of events; every
    count is at least 1; the days are pairwise distinct and are exactly the
    ten-character prefixes of the begin times of the events. *)
Theorem groupFlaresByDay_counts (flares : list SolarFlare) :
  let days := groupFlaresByDay localeCompare flares in
  list_sum (map f_count days) = List.length flares
  /\ Forall (fun d => 1 <= f_count d) days
  /\ NoDup (map f_date days)
  /\ (forall s, In s (map f_date days)
                <-> In s (map (fun f => str_prefix 10 (beginTime f)) flares)).
Proof.
  cbv zeta.
  destruct (flare_map_invariant flares) as (Hnd & Hin & Hpos & Hsum).
  pose proof (groupFlaresByDay_perm flares) as P.
  assert (Pd : Permutation (keys (flare_map flares))
                 (map f_date (groupFlaresByDay localeCompare flares))).
  { unfold keys. rewrite <- (Permutation_map f_date P).
    rewrite map_map. apply Permutation_refl. }
  assert (Pc : Permutation (counts (flare_map flares))
                 (map f_count (groupFlaresByDay localeCompare flares))).
  { unfold counts. rewrite <- (Permutation_map f_count P).
    rewrite map_map. apply Permutation_refl. }
  split; [|split; [|split]].
  - rewrite <- (list_sum_perm Pc). exact Hsum.
  - apply Forall_map. apply (Permutation_Forall Pc). exact Hpos.
  - apply (Permutation_NoDup Pd). exact Hnd.
  - intro s. rewrite <- Hin. split; apply Permutation_in;
      [apply Permutation_sym|]; exact Pd.
Qed.

End FlareMap.

(* ================================================================== *)
(** * Degenerate inputs and finite outputs *)
(* ================================================================== *)

Section Totality.
Local Open Scope Q_scope.




End Totality.



Lemma groupFlaresByDay_counts_witness :
  groupFlaresByDay compare_code_units
    [sample_flare "1" "2024-05-02T10:00Z"; sample_flare "2" "2024-05-01T23:10Z";
     sample_flare "3" "2024-05-02T18:30Z"]%string
  = [{| f_date := "2024-05-01"; f_count := 1 |};
     {| f_date := "2024-05-02"; f_count := 2 |}]%string
  /\ list_sum
       (map f_count
          (groupFlaresByDay compare_code_units
             [sample_flare "1" "2024-05-02T10:00Z";
              sample_flare "2" "2024-05-01T23:10Z";
              sample_flare "3" "2024-05-02T18:30Z"]%string))
     = 3%nat.
Proof.
  split; [reflexivity|].
  exact (proj1 (groupFlaresByDay_counts compare_code_units
                  [sample_flare "1" "2024-05-02T10:00Z";
                   sample_flare "2" "2024-05-01T23:10Z";
                   sample_flare "3" "2024-05-02T18:30Z"]%string)).
Defined.


(* ================================================================== *)
(** * Further properties: the NEO feed and its aggregates *)
(* ================================================================== *)

Section FeedFacts.
Local Open Scope Q_scope.

Lemma flatten_day (day : string) (objs : list NeoObject)
  (entries : list DatedNeo) :
  fold_left (fun es obj => es ++ [{| neo := obj; date := day |}]) objs entries
  = entries ++ map (fun obj => {| neo := obj; date := day |}) objs.
Proof.
  revert entries. induction objs as [|o objs IH]; intro entries; simpl.
  - now rewrite app_nil_r.
  - rewrite IH, <- app_assoc. reflexivity.
Qed.

Lemma flatten_from (feed : NeoFeed) (entries : list DatedNeo) :
  fold_left
    (fun entries day =>
       fold_left (fun es obj => es ++ [{| neo := obj; date := fst day |}])
                 (snd day) entries)
    feed entries
  = entries
    ++ flat_map (fun day => map (fun obj => {| neo := obj; date := fst day |})
                                (snd day)) feed.
Proof.
  revert entries. induction feed as [|day feed IH]; intro entries; simpl.
  - now rewrite app_nil_r.
  - rewrite IH, flatten_day, <- app_assoc. reflexivity.
Qed.

Lemma flattenNeos_value (feed : NeoFeed) :
  flattenNeos feed
  = flat_map (fun day => map (fun obj => {| neo := obj; date := fst day |})
                             (snd day)) feed.
Proof. unfold flattenNeos. now rewrite flatten_from. Qed.

Lemma flattenNeos_length (feed : NeoFeed) :
  List.length (flattenNeos feed)
  = list_sum (map (fun day => List.length (snd day)) feed).
Proof.
  rewrite flattenNeos_value.
  induction feed as [|day feed IH]; simpl; [reflexivity|].
  now rewrite length_app, IH, length_map.
Qed.

(** X1: the flattened feed lists every object of every day once, the days in
    key order and the objects of a day in their order, each with the key of
    its day; its length is the total of the sizes of the days. *)
Theorem flattenNeos_every_object_once (feed : NeoFeed) :
  flattenNeos feed
  = flat_map (fun day => map (fun obj => {| neo := obj; date := fst day |})
                             (snd day)) feed
  /\ map neo (flattenNeos feed) = List.concat (map snd feed)
  /\ List.length (flattenNeos feed)
     = list_sum (map (fun day => List.length (snd day)) feed).
Proof.
  split; [apply flattenNeos_value|]. split; [|apply flattenNeos_length].
  rewrite flattenNeos_value.
  induction feed as [|day feed IH]; simpl; [reflexivity|].
  rewrite map_app, IH, map_map. simpl. now rewrite map_id.
Qed.

Lemma filter_length_le (A : Type) (f : A -> bool) (l : list A) :
  (List.length (filter f l) <= List.length l)%nat.
Proof.
  induction l as [|x l IH]; simpl; [lia|]. destruct (f x); simpl; lia.
Qed.

(** X2: the hazard rate is the share of hazardous objects in percent: between 0
    and 100, 0 without any object. *)
Theorem computeNeoHazards_rate (neos : list DatedNeo) :
  let h := computeNeoHazards neos in
  total h = List.length neos
  /\ hazardous h
     = List.length
         (filter (fun n => is_potentially_hazardous_asteroid (neo n)) neos)
  /\ (hazardous h <= total h)%nat
  /\ exists r, hazardRate h = Num r
               /\ 0 <= r <= 100
               /\ r == match neos with
                       | [] => 0
                       | _ :: _ => inject_Z (Z.of_nat (hazardous h))
                                   / inject_Z (Z.of_nat (total h)) * 100
                       end.
Proof.
  cbv zeta. unfold computeNeoHazards. cbn [total hazardous hazardRate].
  split; [reflexivity|]. split; [reflexivity|].
  pose proof (filter_length_le
                (fun n => is_potentially_hazardous_asteroid (neo n)) neos) as L.
  split; [exact L|].
  set (k := List.length
              (filter (fun n => is_potentially_hazardous_asteroid (neo n)) neos))
    in *.
  rewrite truthy_of_nat.
  destruct neos as [|n0 neos].
  - exists 0. split; [reflexivity|]. split; [lra|reflexivity].
  - set (l := n0 :: neos) in *.
    assert (NZ : (1 <= List.length l)%nat) by (unfold l; simpl; lia).
    replace (List.length l =? 0)%nat with false
      by (symmetry; apply Nat.eqb_neq; lia).
    cbn [negb]. rewrite div_of_nat by lia. cbn [mul].
    eexists. split; [reflexivity|].
    assert (P : 0 < inject_Z (Z.of_nat (List.length l)))
      by (apply inject_Z_nat_pos; lia).
    assert (K0 : 0 <= inject_Z (Z.of_nat k))
      by (change 0 with (inject_Z 0); rewrite <- Zle_Qle; lia).
    assert (K1 : inject_Z (Z.of_nat k) <= inject_Z (Z.of_nat (List.length l)))
      by (rewrite <- Zle_Qle; lia).
    assert (D0 : 0 <= inject_Z (Z.of_nat k) / inject_Z (Z.of_nat (List.length l))).
    { apply Qle_shift_div_l; [exact P|]. lra. }
    assert (D1 : inject_Z (Z.of_nat k) / inject_Z (Z.of_nat (List.length l)) <= 1).
    { apply Qle_shift_div_r; [exact P|]. lra. }
    split; [lra|reflexivity].
Qed.

End FeedFacts.

(* ================================================================== *)
(** * Further properties: the bars of the objects per day *)
(* ================================================================== *)

Section StringOrder.

Lemma ascii_compare_cases (a b : ascii) :
  match Ascii.compare a b with
  | Eq => a = b
  | Lt => (N_of_ascii a < N_of_ascii b)%N
  | Gt => (N_of_ascii b < N_of_ascii a)%N
  end.
Proof.
  unfold Ascii.compare.
  destruct (N.compare_spec (N_of_ascii a) (N_of_ascii b)) as [E|L|G]; auto.
  rewrite <- (ascii_N_embedding a), <- (ascii_N_embedding b). now rewrite E.
Qed.

Lemma str_le_trans (a b c : string) : str_le a b -> str_le b c -> str_le a c.
Proof.
  unfold str_le. revert b c.
  induction a as [|x a IH]; intros [|y b] [|z c]; simpl; try congruence.
  pose proof (ascii_compare_cases x y) as Hxy.
  pose proof (ascii_compare_cases y z) as Hyz.
  pose proof (ascii_compare_cases x z) as Hxz.
  destruct (Ascii.compare x y), (Ascii.compare y z), (Ascii.compare x z);
    subst; try congruence; try lia; try (intros; discriminate); try apply IH.
Qed.

Lemma compare_code_units_le (a b : string) :
  gt (compare_code_units a b) (Num 0) = false -> str_le a b.
Proof.
  unfold compare_code_units, str_le.
  destruct (String.compare a b); intro H; [discriminate|discriminate|].
  cbv in H. discriminate.
Qed.

Lemma compare_code_units_ge (a b : string) :
  gt (compare_code_units a b) (Num 0) = true -> str_le b a.
Proof.
  unfold compare_code_units, str_le. rewrite (String.compare_antisym b a).
  destruct (String.compare a b); intro H; cbv in H; discriminate.
Qed.

End StringOrder.

Section SortByRelation.
Variable A : Type.
Variable cmp : A -> A -> num.
Variable R : A -> A -> Prop.

(** The comparator is consistent with the transitive relation [R]. *)
Hypothesis R_trans : forall x y z, R x y -> R y z -> R x z.
Hypothesis cmp_le : forall x y, gt (cmp x y) (Num 0) = false -> R x y.
Hypothesis cmp_ge : forall x y, gt (cmp x y) (Num 0) = true -> R y x.

Lemma insert_by_ordered (x : A) (l : list A) :
  StronglySorted R l -> StronglySorted R (insert_by cmp x l).
Proof.
  intro Hs. induction Hs as [|y l Hs IH Hy]; cbn [insert_by].
  - constructor; constructor.
  - destruct (gt (cmp x y) (Num 0)) eqn:E.
    + constructor; [exact IH|].
      apply (Permutation_Forall (insert_by_perm cmp x l)).
      constructor; [now apply cmp_ge|exact Hy].
    + constructor; [now constructor|].
      constructor; [now apply cmp_le|].
      eapply Forall_impl; [|exact Hy]. cbv beta. intros z Hz.
      apply R_trans with y; [now apply cmp_le|exact Hz].
Qed.

Lemma sort_ordered (l : list A) : StronglySorted R (sort cmp l).
Proof.
  induction l as [|x l IH]; simpl.
  - constructor.
  - now apply insert_by_ordered.
Qed.

End SortByRelation.

Lemma sort_default_sorted (l : list string) :
  StronglySorted str_le (sort_default l).
Proof.
  unfold sort_default.
  apply sort_ordered;
    [apply str_le_trans|apply compare_code_units_le|apply compare_code_units_ge].
Qed.

Lemma sort_default_perm (l : list string) : Permutation l (sort_default l).
Proof. apply sort_perm. Qed.

Section NeoBars.
Local Open Scope Q_scope.
Variable fmt : string -> string.

Lemma map_completion_Normal (A B : Type) (f : A -> completion B) (g : A -> B)
  (l : list A) :
  (forall x, In x l -> f x = Normal (g x)) ->
  map_completion f l = Normal (map g l).
Proof.
  induction l as [|x l IH]; intro H; simpl.
  - reflexivity.
  - rewrite (H x) by now left. cbn [bind].
    rewrite IH by (intros y Hy; apply H; now right). reflexivity.
Qed.

(** In [arr.map((x, idx) => ...)] over [arr] itself, a parallel array of the
    same length is defined at every index read. *)
Lemma mapi_from_get (A B C : Type) (g : A -> C) (F : A -> option C -> B)
  (pre l : list A) :
  mapi_from (fun x idx => F x (get (map g (pre ++ l)) idx))
            (List.length pre) l
  = map (fun x => F x (Some (g x))) l.
Proof.
  revert pre. induction l as [|x l IH]; intro pre; simpl.
  - reflexivity.
  - f_equal.
    + f_equal. unfold get. rewrite map_app, nth_error_app2
        by (rewrite length_map; lia).
      rewrite length_map, Nat.sub_diag. reflexivity.
    + specialize (IH (pre ++ [x])).
      rewrite length_app in IH. cbn [List.length] in IH.
      rewrite Nat.add_1_r, <- app_assoc in IH. exact IH.
Qed.

Lemma mapi_get (A B C : Type) (g : A -> C) (F : A -> option C -> B)
  (l : list A) :
  mapi (fun x idx => F x (get (map g l) idx)) l
  = map (fun x => F x (Some (g x))) l.
Proof. exact (mapi_from_get g F [] l). Qed.

Lemma feed_get_key (feed : NeoFeed) (d : string) :
  In d (Object_keys feed) -> exists v, feed_get feed d = Some v.
Proof.
  unfold Object_keys. induction feed as [|[k v] feed IH]; simpl; intro H.
  - destruct H.
  - destruct (String.eqb_spec k d) as [E|NE]; [eauto|].
    destruct H as [H|H]; [congruence|auto].
Qed.

Lemma feed_get_entry (feed : NeoFeed) (k : string) (v : list NeoObject) :
  NoDup (Object_keys feed) -> In (k, v) feed -> feed_get feed k = Some v.
Proof.
  unfold Object_keys. induction feed as [|[k' v'] feed IH]; simpl; intros Hn H.
  - destruct H.
  - inversion Hn as [|? ? Hk Hf]; subst.
    destruct H as [H|H].
    + injection H as -> ->. now rewrite String.eqb_refl.
    + destruct (String.eqb_spec k' k) as [->|NE]; [|now apply IH].
      exfalso. apply Hk. apply in_map_iff. now exists (k, v).
Qed.

(** The lookups of [buildNeoBars] never fail, and its bars are those of the
    closed form. *)
Lemma buildNeoBars_value (feed : NeoFeed) :
  buildNeoBars fmt feed = Normal (neo_bars_of fmt feed).
Proof.
  unfold buildNeoBars, neo_bars_of. cbv zeta.
  set (days := sort_default (Object_keys feed)).
  rewrite truthy_of_nat, negb_involutive.
  destruct days as [|d0 ds] eqn:Ed; [reflexivity|].
  cbn [List.length Nat.eqb]. rewrite <- Ed.
  rewrite (@map_completion_Normal _ _ _ (day_size feed)).
  - cbn [bind]. f_equal.
    rewrite (mapi_get (day_size feed)
               (fun date count =>
                  {| nb_label := fmt date;
                     nb_count := count;
                     nb_height :=
                       if truthy (Math_max (map of_nat (map (day_size feed) days)))
                       then Math_round
                              (mul (div (ToNumber of_nat count)
                                        (Math_max
                                           (map of_nat
                                                (map (day_size feed) days))))
                                   (Num 100))
                       else Num 0 |})).
    apply map_ext. intro d. f_equal.
    assert (M : map of_nat (map (day_size feed) days)
                = map Num (map (fun d => inject_Z (Z.of_nat (day_size feed d)))
                               days)).
    { rewrite !map_map. reflexivity. }
    rewrite M, Ed.
    change (map (fun d => inject_Z (Z.of_nat (day_size feed d))) (d0 :: ds))
      with (inject_Z (Z.of_nat (day_size feed d0))
            :: map (fun d => inject_Z (Z.of_nat (day_size feed d))) ds).
    destruct (Math_max_spec (inject_Z (Z.of_nat (day_size feed d0)))
                (map (fun d => inject_Z (Z.of_nat (day_size feed d))) ds))
      as (m & Hm & Em & _).
    rewrite Hm.
    change (bar_height (inject_Z (Z.of_nat (day_size feed d))) (Num m)
            = of_Z (spec_height (inject_Z (Z.of_nat (day_size feed d)))
                      (spec_max_of
                         (inject_Z (Z.of_nat (day_size feed d0))
                          :: map (fun d => inject_Z (Z.of_nat (day_size feed d)))
                                 ds)))).
    now apply bar_height_spec.
  - intros d Hd.
    assert (Hk : In d (Object_keys feed)).
    { apply (Permutation_in d (Permutation_sym
                                 (sort_default_perm (Object_keys feed)))).
      exact Hd. }
    destruct (feed_get_key feed d Hk) as (v & Ev).
    unfold day_size. rewrite Ev. reflexivity.
Qed.

Lemma feed_entries (feed : NeoFeed) :
  NoDup (Object_keys feed) ->
  feed = map (fun d => (d, nullish (feed_get feed d) [])) (Object_keys feed).
Proof.
  unfold Object_keys. induction feed as [|[k v] feed IH]; intro Hn.
  - reflexivity.
  - inversion Hn as [|? ? Hk Hf]; subst.
    cbn [map fst feed_get]. rewrite String.eqb_refl. cbn [nullish]. f_equal.
    rewrite (IH Hf) at 1. apply map_ext_in. intros d Hd.
    destruct (String.eqb_spec k d) as [->|NE]; [contradiction|reflexivity].
Qed.

(** The largest of the sizes of the days. *)
Lemma day_size_max (days : list string) (f : string -> nat) :
  days <> [] ->
  is_max (spec_max_of (map (fun d => inject_Z (Z.of_nat (f d))) days))
         (map (fun d => inject_Z (Z.of_nat (f d))) days).
Proof.
  destruct days as [|d ds]; [congruence|]. intros _.
  apply spec_maximum_is_max.
Qed.

(** X5: one bar per day of the feed, the days in ascending order of their keys;
    the bar of a day is labelled with the day and counts its objects.  No
    lookup of the function fails. *)
Theorem buildNeoBars_one_bar_per_day (feed : NeoFeed) :
  NoDup (Object_keys feed) ->
  exists bars entries,
    buildNeoBars fmt feed = Normal bars
    /\ Permutation feed entries
    /\ StronglySorted str_le (map fst entries)
    /\ Forall2 (fun e b => nb_label b = fmt (fst e)
                          /\ nb_count b = Some (List.length (snd e)))
               entries bars.
Proof.
  intro Hn.
  exists (neo_bars_of fmt feed),
         (map (fun d => (d, nullish (feed_get feed d) []))
              (sort_default (Object_keys feed))).
  split; [apply buildNeoBars_value|]. split; [|split].
  - rewrite (feed_entries feed Hn) at 1.
    apply Permutation_map, sort_default_perm.
  - rewrite map_map. cbn [fst]. rewrite map_id. apply sort_default_sorted.
  - unfold neo_bars_of. cbv zeta.
    generalize (spec_max_of
                  (map (fun d => inject_Z (Z.of_nat (day_size feed d)))
                       (sort_default (Object_keys feed)))) as m.
    intro m.
    induction (sort_default (Object_keys feed)) as [|d ds IH]; simpl;
      constructor; [|exact IH].
    split; reflexivity.
Qed.

(** X6: every bar of the objects per day has a height between 0 and 100, for
    every feed. *)
Theorem buildNeoBars_heights (feed : NeoFeed) :
  exists bars,
    buildNeoBars fmt feed = Normal bars
    /\ Forall (fun b => exists h, nb_height b = of_Z h /\ (0 <= h <= 100)%Z)
              bars.
Proof.
  exists (neo_bars_of fmt feed). split; [apply buildNeoBars_value|].
  unfold neo_bars_of. cbv zeta.
  apply Forall_forall. intros b Hb.
  apply in_map_iff in Hb. destruct Hb as (d & Eb & Hd). subst b.
  cbn [nb_height]. eexists. split; [reflexivity|].
  assert (NE : sort_default (Object_keys feed) <> [])
    by (intro E; rewrite E in Hd; destruct Hd).
  destruct (@day_size_max _ (day_size feed) NE) as [_ Hall].
  rewrite Forall_forall in Hall.
  apply spec_height_range.
  - change 0 with (inject_Z 0). rewrite <- Zle_Qle. lia.
  - apply Hall.
    apply (in_map (fun d => inject_Z (Z.of_nat (day_size feed d)))). exact Hd.
Qed.

(** X7: when some day of the feed has an object, some bar has the full height
    100. *)
Theorem buildNeoBars_tallest (feed : NeoFeed) :
  NoDup (Object_keys feed) ->
  Exists (fun day => snd day <> []) feed ->
  exists bars,
    buildNeoBars fmt feed = Normal bars
    /\ Exists (fun b => nb_height b = Num 100) bars.
Proof.
  intros Hn Hex.
  exists (neo_bars_of fmt feed). split; [apply buildNeoBars_value|].
  apply Exists_exists in Hex. destruct Hex as ([k v] & Hkv & Hv).
  cbn [snd] in Hv.
  assert (Hk : In k (sort_default (Object_keys feed))).
  { apply (Permutation_in k (sort_default_perm (Object_keys feed))).
    unfold Object_keys. apply in_map_iff. now exists (k, v). }
  assert (Sk : (1 <= day_size feed k)%nat).
  { unfold day_size. rewrite (@feed_get_entry feed _ _ Hn Hkv). cbn [nullish].
    destruct v; [congruence|simpl; lia]. }
  assert (NE : sort_default (Object_keys feed) <> [])
    by (intro E; rewrite E in Hk; destruct Hk).
  destruct (@day_size_max _ (day_size feed) NE) as [Hin Hall].
  rewrite Forall_forall in Hall.
  apply in_map_iff in Hin. destruct Hin as (d & Ed & Hd).
  unfold neo_bars_of. cbv zeta.
  apply Exists_exists.
  eexists. split; [apply in_map; exact Hd|].
  cbn [nb_height]. rewrite Ed.
  rewrite spec_height_full; [reflexivity|].
  assert (P : inject_Z (Z.of_nat (day_size feed k))
              <= spec_max_of
                   (map (fun d => inject_Z (Z.of_nat (day_size feed d)))
                        (sort_default (Object_keys feed)))).
  { apply Hall.
    apply (in_map (fun d => inject_Z (Z.of_nat (day_size feed d)))). exact Hk. }
  pose proof (inject_Z_nat_pos Sk). lra.
Qed.

(** X8: the counts of the bars add up to the number of objects of the flattened
    feed. *)
Theorem buildNeoBars_counts_total (feed : NeoFeed) :
  NoDup (Object_keys feed) ->
  exists bars,
    buildNeoBars fmt feed = Normal bars
    /\ list_sum (map (fun b => nullish (nb_count b) 0%nat) bars)
       = List.length (flattenNeos feed).
Proof.
  intro Hn.
  exists (neo_bars_of fmt feed). split; [apply buildNeoBars_value|].
  unfold neo_bars_of. cbv zeta. rewrite map_map. cbn [nb_count nullish].
  transitivity (list_sum (map (day_size feed) (Object_keys feed))).
  { apply list_sum_perm, Permutation_sym, Permutation_map, sort_default_perm. }
  rewrite flattenNeos_length. unfold Object_keys. rewrite map_map.
  f_equal. apply map_ext_in. intros [k v] Hkv. cbn [fst snd].
  unfold day_size. now rewrite (@feed_get_entry feed _ _ Hn Hkv).
Qed.

End NeoBars.

Lemma sample_feed_NoDup : NoDup (Object_keys sample_feed).
Proof.
  constructor; [intros [H|[]]; discriminate|].
  constructor; [intros []|constructor].
Defined.

Lemma buildNeoBars_one_bar_per_day_witness :
  exists bars entries,
    buildNeoBars plain_day sample_feed = Normal bars
    /\ Permutation sample_feed entries
    /\ StronglySorted str_le (map fst entries)
    /\ Forall2 (fun e b => nb_label b = plain_day (fst e)
                          /\ nb_count b = Some (List.length (snd e)))
               entries bars.
Proof.
  apply (@buildNeoBars_one_bar_per_day plain_day sample_feed).
  exact sample_feed_NoDup.
Defined.

Lemma buildNeoBars_tallest_witness :
  exists bars,
    buildNeoBars plain_day sample_feed = Normal bars
    /\ Exists (fun b => nb_height b = Num 100) bars.
Proof.
  apply (@buildNeoBars_tallest plain_day sample_feed).
  - exact sample_feed_NoDup.
  - constructor. discriminate.
Defined.

Lemma buildNeoBars_counts_total_witness :
  exists bars,
    buildNeoBars plain_day sample_feed = Normal bars
    /\ list_sum (map (fun b => nullish (nb_count b) 0%nat) bars)
       = List.length (flattenNeos sample_feed).
Proof.
  apply (@buildNeoBars_counts_total plain_day sample_feed).
  exact sample_feed_NoDup.
Defined.

(* ================================================================== *)
(** * Further properties: the closest approaches and the solar flares *)
(* ================================================================== *)

Section SortedLists.
Variable A : Type.
Variable R : A -> A -> Prop.

Lemma StronglySorted_app_le (l1 l2 : list A) :
  StronglySorted R (l1 ++ l2) ->
  Forall (fun a => Forall (R a) l2) l1.
Proof.
  induction l1 as [|x l1 IH]; simpl; intro H.
  - constructor.
  - inversion H as [|? ? Hs Hx]; subst. constructor.
    + apply Forall_app in Hx. apply Hx.
    + now apply IH.
Qed.

(** The last element of a sorted array is above all of them. *)
Lemma StronglySorted_last (l : list A) (f : A) :
  (forall x, R x x) ->
  StronglySorted R l ->
  nth_error l (List.length l - 1) = Some f ->
  Forall (fun g => R g f) l.
Proof.
  intros Hrefl Hs. induction Hs as [|x l Hs IH Hx]; intro Hf.
  - constructor.
  - destruct l as [|y l].
    + simpl in Hf. injection Hf as ->. constructor; [apply Hrefl|constructor].
    + assert (Hf' : nth_error (y :: l) (List.length (y :: l) - 1) = Some f).
      { cbn [List.length] in *.
        replace (S (S (List.length l)) - 1)%nat with (S (List.length l)) in Hf
          by lia.
        replace (S (List.length l) - 1)%nat with (List.length l) by lia.
        exact Hf. }
      specialize (IH Hf'). constructor; [|exact IH].
      rewrite Forall_forall in Hx. apply Hx.
      eapply nth_error_In. exact Hf'.
Qed.

End SortedLists.

Section ClosestFacts.
Variable Number : string -> num.

(** X9: the ranking returns [K] records, or all of them when there are fewer,
    and they are records of the objects with a close approach, each taken at
    most once; when every miss distance is a number, no record left out is
    closer than a record returned. *)
Theorem pickClosestNeos_keeps_closest (neos : list DatedNeo) (K : nat) :
  exists rest,
    Permutation (spec_enriched Number neos)
                (pickClosestNeos Number neos (of_nat K) ++ rest)
    /\ List.length (pickClosestNeos Number neos (of_nat K))
       = Nat.min K (List.length (spec_enriched Number neos))
    /\ (Forall (fun e => missKm e <> NaN) (spec_enriched Number neos) ->
        Forall (fun a => Forall (fun b => num_le (missKm a) (missKm b)) rest)
               (pickClosestNeos Number neos (of_nat K))).
Proof.
  assert (E : pickClosestNeos Number neos (of_nat K)
              = firstn K (sort (fun a b => sub (missKm a) (missKm b))
                               (spec_enriched Number neos))).
  { unfold pickClosestNeos. rewrite enriched_spec. apply slice_0_of_nat. }
  rewrite E.
  set (ranked := sort (fun a b => sub (missKm a) (missKm b))
                      (spec_enriched Number neos)).
  assert (P : Permutation (spec_enriched Number neos) ranked)
    by apply sort_perm.
  exists (skipn K ranked). split; [|split].
  - now rewrite firstn_skipn.
  - rewrite length_firstn. now rewrite (Permutation_length P).
  - intro Hnum.
    apply (StronglySorted_app_le (R := fun a b => num_le (missKm a) (missKm b))).
    rewrite firstn_skipn. now apply sort_sorted.
Qed.

End ClosestFacts.

Section FlareFacts.
Local Open Scope nat_scope.

Lemma Map_get_In (m : Map) (k : string) (v : nat) :
  Map_get m k = Some v -> In (k, v) m.
Proof.
  induction m as [|[k' v'] m IH]; simpl; intro H; [discriminate|].
  destruct (String.eqb_spec k' k) as [->|NE].
  - injection H as ->. now left.
  - right. now apply IH.
Qed.

Lemma Map_get_None (m : Map) (k : string) :
  Map_get m k = None -> ~ In k (keys m).
Proof.
  unfold keys. induction m as [|[k' v'] m IH]; simpl; intros H I.
  - exact I.
  - destruct (String.eqb_spec k' k) as [->|NE]; [discriminate|].
    destruct I as [I|I]; [congruence|]. now apply IH.
Qed.

(** The entries after [map.set(k, v)]: the new entry, or an old entry of
    another key. *)
Lemma Map_set_entries (m : Map) (k : string) (v : nat) (e : string * nat) :
  NoDup (keys m) -> In e (Map_set m k v) ->
  e = (k, v) \/ (In e m /\ fst e <> k).
Proof.
  unfold keys. induction m as [|[k' v'] m IH]; simpl; intros Hn H.
  - destruct H as [H|[]]. now left.
  - inversion Hn as [|? ? Hk Hm]; subst.
    destruct (String.eqb_spec k' k) as [->|NE].
    + destruct H as [H|H]; [now left|]. right. split; [now right|].
      intro E. apply Hk. rewrite <- E. now apply in_map.
    + destruct H as [H|H].
      * right. subst e. split; [now left|exact NE].
      * destruct (IH Hm H) as [E|[I F]]; [now left|].
        right. split; [now right|exact F].
Qed.

(** The count the loop holds for a day is the number of the events seen on
    that day. *)
Lemma flare_map_count (flares : list SolarFlare) :
  Forall (fun e => snd e = count_occ string_dec (map spec_day flares) (fst e))
         (flare_map flares).
Proof.
  induction flares as [|f flares IH] using rev_ind.
  - constructor.
  - destruct (flare_map_invariant flares) as (Hnd & Hin & _ & _).
    rewrite flare_map_snoc. rewrite Forall_forall in IH |- *.
    intros e He. rewrite map_app, count_occ_app. cbn [map count_occ].
    apply Map_set_entries in He; [|exact Hnd].
    destruct He as [->|[He Hk]].
    + cbn [fst snd].
      destruct (string_dec (spec_day f) (spec_day f)) as [_|N]; [|congruence].
      destruct (Map_get (flare_map flares) (spec_day f)) as [old|] eqn:G.
      * apply Map_get_In in G. apply IH in G. cbn [fst snd] in G.
        cbn [nullish]. lia.
      * apply Map_get_None in G. cbn [nullish].
        assert (Z0 : count_occ string_dec (map spec_day flares) (spec_day f) = 0).
        { apply count_occ_not_In. intro I. apply G. now apply Hin. }
        lia.
    + destruct (string_dec (spec_day f) (fst e)) as [E|_]; [congruence|].
      rewrite (IH e He). lia.
Qed.

Variable localeCompare : string -> string -> num.

(** X10: the count of a day is the number of the flares whose begin time starts
    with that day. *)
Theorem groupFlaresByDay_day_count (flares : list SolarFlare) :
  Forall (fun d =>
            f_count d
            = count_occ string_dec
                (map (fun f => str_prefix 10 (beginTime f)) flares) (f_date d))
         (groupFlaresByDay localeCompare flares).
Proof.
  apply (Permutation_Forall (groupFlaresByDay_perm localeCompare flares)).
  apply Forall_map. eapply Forall_impl; [|apply flare_map_count].
  cbv beta. intros e He. exact He.
Qed.

(** X11: the days come out in ascending order, in any transitive order of the
    strings that the comparison of the host agrees with. *)
Theorem groupFlaresByDay_sorted (R : string -> string -> Prop)
  (flares : list SolarFlare) :
  (forall a b c, R a b -> R b c -> R a c) ->
  (forall a b, gt (localeCompare a b) (Num 0) = false -> R a b) ->
  (forall a b, gt (localeCompare a b) (Num 0) = true -> R b a) ->
  StronglySorted (fun x y => R (f_date x) (f_date y))
                 (groupFlaresByDay localeCompare flares).
Proof.
  intros Ht Hle Hge. unfold groupFlaresByDay.
  apply (@sort_ordered FlareDay
           (fun a b => localeCompare (f_date a) (f_date b))
           (fun x y => R (f_date x) (f_date y))).
  - intros x y z. apply Ht.
  - intros x y. apply Hle.
  - intros x y. apply Hge.
Qed.

(** X12: the bar of a day in the flare list is between 25 and 100 wide, and 100
    wide exactly from four flares on. *)
Theorem flare_width_range (flares : list SolarFlare) :
  Forall (fun d => exists w, flare_width d = Num w
                             /\ (25 <= w <= 100)%Q
                             /\ ((w == 100)%Q <-> 4 <= f_count d))
         (groupFlaresByDay localeCompare flares).
Proof.
  destruct (flare_map_invariant flares) as (_ & _ & Hpos & _).
  apply (Permutation_Forall (groupFlaresByDay_perm localeCompare flares)).
  apply Forall_map. unfold counts in Hpos.
  rewrite Forall_map in Hpos.
  eapply Forall_impl; [|exact Hpos]. cbv beta. intros [k c] Hc.
  cbn [snd] in Hc. unfold flare_width. cbn [f_count fst snd].
  unfold Math_min, of_nat, of_Z. cbn [fold_left mul min2].
  assert (P : (1 <= inject_Z (Z.of_nat c))%Q).
  { change 1%Q with (inject_Z 1). rewrite <- Zle_Qle. lia. }
  destruct (Qle_bool (inject_Z (Z.of_nat c) * 25) 100) eqn:E.
  - apply Qle_bool_iff in E. eexists. split; [reflexivity|].
    split; [lra|]. split.
    + intro W.
      assert (Q4 : (inject_Z 4 <= inject_Z (Z.of_nat c))%Q).
      { change (inject_Z 4) with 4%Q. lra. }
      rewrite <- Zle_Qle in Q4. lia.
    + intro H4.
      assert (Q4 : (inject_Z 4 <= inject_Z (Z.of_nat c))%Q)
        by (rewrite <- Zle_Qle; lia).
      change (inject_Z 4) with 4%Q in Q4. lra.
  - apply Qle_bool_false in E. eexists. split; [reflexivity|].
    split; [lra|]. split; [|reflexivity].
    intros _.
    assert (Q4 : (inject_Z 4 < inject_Z (Z.of_nat c))%Q).
    { change (inject_Z 4) with 4%Q. lra. }
    rewrite <- Zlt_Qlt in Q4. lia.
Qed.

Lemma latestFlare_value (flares : list SolarFlare) :
  latestFlare flares = Normal (get flares (List.length flares - 1)).
Proof.
  unfold latestFlare. destruct flares as [|f0 flares]; [reflexivity|].
  cbn [get nth_error]. unfold get.
  destruct (nth_error (f0 :: flares) (List.length (f0 :: flares) - 1))
    as [f|] eqn:E; [reflexivity|].
  apply nth_error_None in E. cbn [List.length] in E. lia.
Qed.

(** X13: the flare shown as the latest one is a flare of the response whose begin
    time is the greatest, in any transitive order of the strings that the
    comparison of the host agrees with; reading it never fails. *)
Theorem latestFlare_greatest (R : string -> string -> Prop)
  (data : list SolarFlare) :
  (forall a b c, R a b -> R b c -> R a c) ->
  (forall a b, gt (localeCompare a b) (Num 0) = false -> R a b) ->
  (forall a b, gt (localeCompare a b) (Num 0) = true -> R b a) ->
  data <> [] ->
  exists f,
    latestFlare (getSolarFlares_sorted localeCompare data) = Normal (Some f)
    /\ In f data
    /\ Forall (fun g => R (beginTime g) (beginTime f)) data.
Proof.
  intros Ht Hle Hge NE. rewrite latestFlare_value.
  set (sorted := getSolarFlares_sorted localeCompare data).
  assert (P : Permutation data sorted) by apply sort_perm.
  assert (Hs : StronglySorted (fun x y => R (beginTime x) (beginTime y)) sorted).
  { apply (@sort_ordered SolarFlare
             (fun a b => localeCompare (beginTime a) (beginTime b))
             (fun x y => R (beginTime x) (beginTime y))).
    - intros x y z. apply Ht.
    - intros x y. apply Hle.
    - intros x y. apply Hge. }
  assert (Hrefl : forall x : SolarFlare, R (beginTime x) (beginTime x)).
  { intro x.
    destruct (gt (localeCompare (beginTime x) (beginTime x)) (Num 0)) eqn:E;
      [now apply Hge|now apply Hle]. }
  unfold get.
  destruct (nth_error sorted (List.length sorted - 1)) as [f|] eqn:E.
  - exists f. split; [reflexivity|]. split.
    + apply (Permutation_in f (Permutation_sym P)).
      eapply nth_error_In. exact E.
    + apply (Permutation_Forall (Permutation_sym P)).
      apply (@StronglySorted_last _ (fun x y => R (beginTime x) (beginTime y)) sorted f Hrefl Hs E).
  - exfalso. apply nth_error_None in E.
    pose proof (Permutation_length P) as L.
    destruct data as [|d data]; [congruence|]. cbn [List.length] in L. lia.
Qed.

End FlareFacts.

Lemma pickClosestNeos_keeps_closest_witness :
  pickClosestNeos Number_of_digits
    [sample_neo "a" ["30"]; sample_neo "b" ["abc"]; sample_neo "c" [];
     sample_neo "d" ["20"]]%string (of_nat 2)
  <> []
  /\ exists rest,
       Permutation
         (spec_enriched Number_of_digits
            [sample_neo "a" ["30"]; sample_neo "b" ["10"; "5"];
             sample_neo "c" []; sample_neo "d" ["20"]]%string)
         (pickClosestNeos Number_of_digits
            [sample_neo "a" ["30"]; sample_neo "b" ["10"; "5"];
             sample_neo "c" []; sample_neo "d" ["20"]]%string (of_nat 2)
          ++ rest)
       /\ Forall (fun a =>
                    Forall (fun b => num_le (missKm a) (missKm b)) rest)
                 (pickClosestNeos Number_of_digits
                    [sample_neo "a" ["30"]; sample_neo "b" ["10"; "5"];
                     sample_neo "c" []; sample_neo "d" ["20"]]%string
                    (of_nat 2)).
Proof.
  split.
  - destruct (@pickClosestNeos_keeps_closest Number_of_digits
                [sample_neo "a" ["30"]; sample_neo "b" ["abc"];
                 sample_neo "c" []; sample_neo "d" ["20"]]%string 2%nat)
      as (rest & _ & L & _).
    intro E. rewrite E in L. discriminate L.
  - destruct (@pickClosestNeos_keeps_closest Number_of_digits
                [sample_neo "a" ["30"]; sample_neo "b" ["10"; "5"];
                 sample_neo "c" []; sample_neo "d" ["20"]]%string 2%nat)
      as (rest & P & _ & H).
    exists rest. split; [exact P|]. apply H.
    repeat constructor; discriminate.
Defined.

Lemma groupFlaresByDay_sorted_witness :
  StronglySorted (fun x y => str_le (f_date x) (f_date y))
    (groupFlaresByDay compare_code_units
       [sample_flare "1" "2024-05-02T10:00Z";
        sample_flare "2" "2024-05-01T23:10Z";
        sample_flare "3" "2024-05-02T18:30Z"]%string).
Proof.
  apply (@groupFlaresByDay_sorted compare_code_units str_le
           [sample_flare "1" "2024-05-02T10:00Z";
            sample_flare "2" "2024-05-01T23:10Z";
            sample_flare "3" "2024-05-02T18:30Z"]%string).
  - exact str_le_trans.
  - exact compare_code_units_le.
  - exact compare_code_units_ge.
Defined.

Lemma latestFlare_greatest_witness :
  exists f,
    latestFlare
      (getSolarFlares_sorted compare_code_units
         [sample_flare "1" "2024-05-02T10:00Z";
          sample_flare "2" "2024-05-01T23:10Z";
          sample_flare "3" "2024-05-02T18:30Z"]%string)
    = Normal (Some f)
    /\ In f [sample_flare "1" "2024-05-02T10:00Z";
             sample_flare "2" "2024-05-01T23:10Z";
             sample_flare "3" "2024-05-02T18:30Z"]%string
    /\ Forall (fun g => str_le (beginTime g) (beginTime f))
              [sample_flare "1" "2024-05-02T10:00Z";
               sample_flare "2" "2024-05-01T23:10Z";
               sample_flare "3" "2024-05-02T18:30Z"]%string.
Proof.
  apply (@latestFlare_greatest compare_code_units str_le
           [sample_flare "1" "2024-05-02T10:00Z";
            sample_flare "2" "2024-05-01T23:10Z";
            sample_flare "3" "2024-05-02T18:30Z"]%string).
  - exact str_le_trans.
  - exact compare_code_units_le.
  - exact compare_code_units_ge.
  - discriminate.
Defined.

(* ================================================================== *)
(** * Further properties: the market shares *)
(* ================================================================== *)

Section ShareFacts.
Local Open Scope Q_scope.

Lemma spec_sum_nonneg (qs : list Q) (x : Q) :
  Forall (fun q => 0 <= q) qs -> In x qs -> 0 <= x <= spec_sum qs.
Proof.
  unfold spec_sum. induction 1 as [|q qs Hq Hqs IH]; simpl; intro I.
  - destruct I.
  - assert (S0 : 0 <= fold_right Qplus 0 qs).
    { clear IH I. induction Hqs as [|y ys Hy _ IHs]; simpl; lra. }
    destruct I as [->|I]; [lra|]. specialize (IH I). lra.
Qed.

(** X16: when no market cap of the first five coins is negative, every share is
    between 0 and 100. *)
Theorem marketShare_range (coins : list MarketCoin) :
  Forall (fun c => 0 <= market_cap c) (top5 coins) ->
  Forall (fun it => exists s, share it = Num s /\ 0 <= s <= 100)
         (marketShare coins).
Proof.
  rewrite top5_firstn. intro Hpos.
  destruct (totalTop5Cap_value coins) as (t & Ht & Et).
  rewrite (marketShare_value coins Ht).
  apply Forall_forall. intros it Hit.
  apply in_map_iff in Hit. destruct Hit as (c & Ec & Hc). subst it.
  cbn [share].
  destruct (Qeq_bool t 0) eqn:Z0.
  - exists 0. split; [reflexivity|lra].
  - apply Qeq_bool_false in Z0. eexists. split; [reflexivity|].
    assert (B : 0 <= market_cap c
                <= spec_sum (map market_cap (firstn 5 coins))).
    { apply spec_sum_nonneg; [now apply Forall_map|now apply in_map]. }
    rewrite <- Et in B.
    assert (P : 0 < t) by (destruct (Qlt_le_dec 0 t); [assumption|exfalso; apply Z0; lra]).
    assert (L : 0 <= market_cap c / t) by (apply Qle_shift_div_l; lra).
    assert (U : market_cap c / t <= 1) by (apply Qle_shift_div_r; lra).
    lra.
Qed.

End ShareFacts.

Lemma marketShare_range_witness :
  Forall (fun it => exists s, share it = Num s /\ (0 <= s <= 100)%Q)
         (marketShare [sample_coin "a" 30 1 None; sample_coin "b" 10 1 None]%string%Q).
Proof.
  apply (@marketShare_range
           [sample_coin "a" 30 1 None; sample_coin "b" 10 1 None]%string%Q).
  repeat constructor; simpl; discriminate.
Defined.

(* ================================================================== *)
(** * Further properties: the price bars and the green rate *)
(* ================================================================== *)

Section Subsequences.
Variable A : Type.

Lemma subseq_refl (l : list A) : subseq l l.
Proof.
  induction l; [apply subseq_nil|now apply subseq_keep].
Qed.

Lemma subseq_nil_l (l : list A) : subseq [] l.
Proof.
  induction l; [apply subseq_nil|now apply subseq_skip].
Qed.

Lemma subseq_trans (l1 l2 l3 : list A) :
  subseq l1 l2 -> subseq l2 l3 -> subseq l1 l3.
Proof.
  intros H12 H23. revert l1 H12.
  induction H23 as [|x l2 l3 H IH|x l2 l3 H IH]; intros l1 H12.
  - exact H12.
  - apply subseq_skip. now apply IH.
  - inversion H12 as [|? ? ? H'|? ? ? H']; subst.
    + apply subseq_skip. now apply IH.
    + apply subseq_keep. now apply IH.
Qed.

Lemma subseq_firstn (n : nat) (l : list A) : subseq (firstn n l) l.
Proof.
  revert n. induction l as [|x l IH]; intros [|n]; simpl.
  - apply subseq_nil.
  - apply subseq_nil.
  - apply subseq_nil_l.
  - apply subseq_keep, IH.
Qed.

Lemma subseq_skipn (n : nat) (l : list A) : subseq (skipn n l) l.
Proof.
  revert n. induction l as [|x l IH]; intros [|n]; simpl.
  - apply subseq_nil.
  - apply subseq_nil.
  - apply subseq_refl.
  - apply subseq_skip, IH.
Qed.

Lemma subseq_slice (a : num) (b : option num) (l : list A) :
  subseq (slice a b l) l.
Proof.
  unfold slice. eapply subseq_trans; [apply subseq_firstn|apply subseq_skipn].
Qed.

Lemma subseq_filter_from (f : A -> nat -> bool) (i : nat) (l : list A) :
  subseq (filter_from f i l) l.
Proof.
  revert i. induction l as [|x l IH]; intro i; simpl.
  - apply subseq_nil.
  - destruct (f x i); [apply subseq_keep|apply subseq_skip]; apply IH.
Qed.

End Subsequences.

Section Counting.
Local Open Scope nat_scope.

(** Among the indices below [len], at least [len / s] rounded up are
    multiples of [s]. *)
Lemma count_multiples (s len : nat) :
  1 <= s ->
  len <= List.length (filter (fun i => i mod s =? 0) (seq 0 len)) * s.
Proof.
  intro Hs. induction len as [|len IH]; [simpl; lia|].
  rewrite seq_S, filter_app, length_app. cbn [plus filter].
  destruct (Nat.eqb_spec (len mod s) 0) as [Z0|NZ]; cbn [List.length].
  - lia.
  - rewrite Nat.add_0_r.
    set (c := List.length (filter (fun i => i mod s =? 0) (seq 0 len))) in *.
    assert (Ne : c * s <> len).
    { intro E. apply NZ. rewrite <- E. apply Nat.Div0.mod_mul. }
    lia.
Qed.

Lemma filter_combine_length (A : Type) (f : nat -> bool) (idxs : list nat)
  (l : list A) :
  List.length idxs = List.length l ->
  List.length (filter (fun p : nat * A => f (fst p)) (combine idxs l))
  = List.length (filter f idxs).
Proof.
  revert l. induction idxs as [|i idxs IH]; intros [|x l] H; simpl in *;
    try reflexivity; try discriminate.
  injection H as H. destruct (f i); simpl; now rewrite IH.
Qed.

Lemma spec_every_nth_length (A : Type) (s : nat) (l : list A) :
  1 <= s ->
  List.length l <= List.length (spec_every_nth s l) * s
  /\ List.length (spec_every_nth s l) <= List.length l.
Proof.
  intro Hs. unfold spec_every_nth. rewrite length_map.
  rewrite (filter_combine_length (fun i => i mod s =? 0))
    by apply length_seq.
  split; [now apply count_multiples|].
  etransitivity; [apply filter_length_le|]. now rewrite length_seq.
Qed.

Lemma filter_from_all (A : Type) (f : A -> nat -> bool) (i : nat)
  (l : list A) :
  (forall x j, f x j = true) -> filter_from f i l = l.
Proof.
  intro H. revert i. induction l as [|x l IH]; intro i; simpl; [reflexivity|].
  now rewrite H, IH.
Qed.

Lemma spec_every_nth_one (A : Type) (l : list A) : spec_every_nth 1 l = l.
Proof.
  unfold spec_every_nth.
  rewrite <- (filter_from_combine (fun _ i => i mod 1 =? 0) l 0).
  apply filter_from_all. intros _ j. now rewrite Nat.mod_1_r.
Qed.

(** The number of samples retained for a bar count of at least one. *)
Lemma price_sampled_length (prices : list Sample) (n : nat) :
  1 <= n ->
  List.length (price_sampled prices (of_nat n))
  = Nat.min n (List.length prices).
Proof.
  intro Hn. rewrite price_sampled_of_nat by assumption.
  unfold spec_last_n. rewrite length_skipn.
  set (s := Nat.max 1 (List.length prices / n)).
  destruct (@spec_every_nth_length Sample s prices) as [Lo Hi]; [lia|].
  set (c := List.length (spec_every_nth s prices)) in *.
  destruct (Nat.le_gt_cases n (List.length prices)) as [Hle|Hgt].
  - assert (Sn : s * n <= List.length prices).
    { unfold s.
      assert (1 <= List.length prices / n)
        by (apply Nat.div_le_lower_bound; lia).
      rewrite Nat.max_r by lia.
      rewrite Nat.mul_comm. apply Nat.Div0.mul_div_le. }
    assert (n <= c) by nia. lia.
  - assert (S1 : s = 1).
    { unfold s. rewrite Nat.div_small by lia. reflexivity. }
    rewrite S1 in Lo. lia.
Qed.

End Counting.

Section PriceBarFacts.
Local Open Scope Q_scope.
Variable fmt : Q -> string.

(** X17: for a bar count [n >= 1] the chart has exactly [n] bars when the series
    has at least [n] samples, and one bar per sample otherwise. *)
Theorem buildPriceBars_count (prices : list Sample) (n : nat) :
  (1 <= n)%nat ->
  List.length (buildPriceBars fmt prices (of_nat n))
  = Nat.min n (List.length prices).
Proof.
  intro Hn. rewrite buildPriceBars_sampled. cbv zeta.
  rewrite length_map. now apply price_sampled_length.
Qed.

(** X18: a series of at most [n] samples is shown in full: one bar per sample,
    in order, with its price and the label of its time. *)
Theorem buildPriceBars_short_series (prices : list Sample) (n : nat) :
  (1 <= n)%nat -> (List.length prices <= n)%nat ->
  map value (buildPriceBars fmt prices (of_nat n)) = map snd prices
  /\ map label (buildPriceBars fmt prices (of_nat n))
     = map (fun s => fmt (fst s)) prices.
Proof.
  intros Hn Hlen. rewrite buildPriceBars_sampled. cbv zeta.
  rewrite price_sampled_of_nat by assumption.
  assert (S1 : Nat.max 1 (List.length prices / n) = 1%nat).
  { destruct (Nat.eq_dec (List.length prices) n) as [E|NE].
    - rewrite E, Nat.div_same by lia. reflexivity.
    - rewrite Nat.div_small by lia. reflexivity. }
  rewrite S1, spec_every_nth_one. unfold spec_last_n.
  replace (List.length prices - n)%nat with 0%nat by lia.
  cbn [skipn]. rewrite !map_map. cbn [value label]. split; reflexivity.
Qed.

(** X19: for every bar count, the bars are those of a selection of the samples
    in their order: no bar is made up, repeated or moved. *)
Theorem buildPriceBars_subseq (prices : list Sample) (maxPoints : num) :
  exists sampled,
    subseq sampled prices
    /\ map value (buildPriceBars fmt prices maxPoints) = map snd sampled
    /\ map label (buildPriceBars fmt prices maxPoints)
       = map (fun s => fmt (fst s)) sampled.
Proof.
  exists (price_sampled prices maxPoints). split.
  - unfold price_sampled, filter_idx.
    eapply subseq_trans; [apply subseq_slice|apply subseq_filter_from].
  - rewrite buildPriceBars_sampled. cbv zeta. rewrite !map_map.
    cbn [value label]. split; reflexivity.
Qed.

Lemma spec_height_mono (v1 v2 m : Q) :
  0 <= m -> v1 <= v2 -> (spec_height v1 m <= spec_height v2 m)%Z.
Proof.
  intros Hm Hv. unfold spec_height.
  destruct (Qeq_bool m 0) eqn:Z0; [lia|].
  apply Qeq_bool_false in Z0.
  assert (P : 0 < m)
    by (destruct (Qlt_le_dec 0 m); [assumption|exfalso; apply Z0; lra]).
  apply Qfloor_resp_le.
  assert (D : v1 / m <= v2 / m).
  { unfold Qdiv. apply Qmult_le_compat_r; [exact Hv|].
    apply Qlt_le_weak, Qinv_lt_0_compat, P. }
  lra.
Qed.

(** X20: when no price is negative, a bar of a higher price is never lower. *)
Theorem buildPriceBars_monotone (prices : list Sample) (maxPoints : num) :
  Forall (fun s => 0 <= snd s) prices ->
  Forall (fun b1 =>
            Forall (fun b2 =>
                      value b1 <= value b2 ->
                      num_le (height b1) (height b2))
                   (buildPriceBars fmt prices maxPoints))
         (buildPriceBars fmt prices maxPoints).
Proof.
  intro Hpos. rewrite Forall_forall in Hpos.
  apply Forall_forall. intros b1 H1. apply Forall_forall. intros b2 H2 Hv.
  apply buildPriceBars_In in H1. destruct H1 as (s1 & _ & E1 & Hin & _).
  apply buildPriceBars_In in H2. destruct H2 as (s2 & _ & E2 & _).
  subst b1 b2. cbn [height value] in *.
  apply in_map_iff in Hin. destruct Hin as (s & Es & Hs).
  unfold of_Z, num_le. rewrite <- Zle_Qle.
  apply spec_height_mono; [|exact Hv].
  rewrite <- Es. apply Hpos. eapply price_sampled_In; eassumption.
Qed.

(** X21: for a bar count [n >= 1] and positive prices, the chart of a non-empty
    series has a bar of the full height 100. *)
Theorem buildPriceBars_tallest (prices : list Sample) (n : nat) :
  (1 <= n)%nat -> prices <> [] ->
  Forall (fun s => 0 < snd s) prices ->
  Exists (fun b => height b = Num 100)
         (buildPriceBars fmt prices (of_nat n)).
Proof.
  intros Hn NE Hpos. rewrite Forall_forall in Hpos.
  rewrite buildPriceBars_sampled. cbv zeta.
  assert (Hlen : List.length (price_sampled prices (of_nat n))
                 = Nat.min n (List.length prices))
    by (now apply price_sampled_length).
  destruct (price_sampled prices (of_nat n)) as [|x r] eqn:Es.
  { destruct prices; [congruence|]. cbn [List.length] in Hlen. lia. }
  rewrite <- Es in *.
  assert (Hmax : is_max (spec_max_of (map snd (price_sampled prices (of_nat n))))
                        (map snd (price_sampled prices (of_nat n)))).
  { rewrite Es. apply spec_maximum_is_max. }
  destruct Hmax as [Hin _].
  apply in_map_iff in Hin. destruct Hin as (s & Em & Hs).
  apply Exists_exists. eexists. split; [apply in_map; exact Hs|].
  cbn [height]. rewrite Em. rewrite spec_height_full; [reflexivity|].
  assert (P : 0 < snd s) by (apply Hpos; eapply price_sampled_In; eassumption).
  rewrite <- Em. lra.
Qed.

(** X22: when no volume is negative, a bar of a higher volume is never lower. *)
Theorem buildVolumeBars_monotone (coins : list MarketCoin) :
  Forall (fun c => 0 <= total_volume c) coins ->
  Forall (fun b1 =>
            Forall (fun b2 =>
                      value b1 <= value b2 ->
                      num_le (height b1) (height b2))
                   (buildVolumeBars coins))
         (buildVolumeBars coins).
Proof.
  intro Hpos. rewrite Forall_forall in Hpos.
  rewrite buildVolumeBars_value.
  apply Forall_forall. intros b1 H1. apply Forall_forall. intros b2 H2 Hv.
  apply in_map_iff in H1. destruct H1 as (c1 & E1 & Hc1).
  apply in_map_iff in H2. destruct H2 as (c2 & E2 & Hc2).
  subst b1 b2. cbn [height value] in *.
  unfold of_Z, num_le. rewrite <- Zle_Qle.
  apply spec_height_mono; [|exact Hv].
  destruct coins as [|c0 cs]; [destruct Hc1|].
  destruct (spec_maximum_is_max (total_volume c0) (map total_volume cs))
    as [Hin _].
  change (In (spec_max_of (map total_volume (c0 :: cs)))
             (map total_volume (c0 :: cs))) in Hin.
  apply in_map_iff in Hin. destruct Hin as (c & Ec & Hc).
  rewrite <- Ec. now apply Hpos.
Qed.

End PriceBarFacts.

Section GreenFacts.
Local Open Scope Q_scope.

(** X23: the rate is a percentage: 100 exactly when some move is up and none is
    down, 0 exactly when no move is up. *)
Theorem computeGreenRate_range (prices : list Sample) :
  exists g r,
    computeGreenRate prices = Normal g
    /\ greenRate g = Num r
    /\ 0 <= r <= 100
    /\ (r == 100 <-> (1 <= up g)%nat /\ down g = 0%nat)
    /\ (r == 0 <-> up g = 0%nat).
Proof.
  pose proof (computeGreenRate_value prices) as V.
  set (u := spec_up prices) in *. set (d := spec_down prices) in *.
  unfold spec_green_rate in V.
  destruct (Nat.eqb_spec (u + d) 0) as [Z0|NZ].
  - do 2 eexists. split; [exact V|]. cbn [greenRate up down].
    split; [reflexivity|]. split; [lra|]. split; split.
    + intro H. exfalso. lra.
    + intros [H _]. exfalso. lia.
    + intros _. lia.
    + intros _. reflexivity.
  - do 2 eexists. split; [exact V|]. cbn [greenRate up down].
    split; [reflexivity|].
    assert (P : 0 < inject_Z (Z.of_nat (u + d)))
      by (apply inject_Z_nat_pos; lia).
    assert (U0 : 0 <= inject_Z (Z.of_nat u))
      by (change 0 with (inject_Z 0); rewrite <- Zle_Qle; lia).
    assert (U1 : inject_Z (Z.of_nat u) <= inject_Z (Z.of_nat (u + d)))
      by (rewrite <- Zle_Qle; lia).
    assert (D0 : 0 <= inject_Z (Z.of_nat u) / inject_Z (Z.of_nat (u + d))).
    { apply Qle_shift_div_l; [exact P|]. lra. }
    assert (D1 : inject_Z (Z.of_nat u) / inject_Z (Z.of_nat (u + d)) <= 1).
    { apply Qle_shift_div_r; [exact P|]. lra. }
    assert (M : inject_Z (Z.of_nat u) / inject_Z (Z.of_nat (u + d))
                * inject_Z (Z.of_nat (u + d)) == inject_Z (Z.of_nat u)).
    { field. lra. }
    split; [lra|]. split; split.
    + intro H.
      assert (E : inject_Z (Z.of_nat u) == inject_Z (Z.of_nat (u + d))) by nra.
      rewrite inject_Z_injective in E. lia.
    + intros [H1 H2].
      replace (u + d)%nat with u by lia.
      field. replace (u + d)%nat with u in P by lia. lra.
    + intro H.
      assert (E : inject_Z (Z.of_nat u) == inject_Z 0)
        by (change (inject_Z 0) with 0; nra).
      rewrite inject_Z_injective in E. lia.
    + intro H.
      assert (E : inject_Z (Z.of_nat u) == 0) by (now rewrite H).
      rewrite E. field. lra.
Qed.

Lemma spec_moves_snoc (moved : Q -> Q -> bool) (l : list Sample)
  (x y : Sample) :
  spec_moves moved (l ++ [x; y])
  = (spec_moves moved (l ++ [x])
     + (if moved (snd x) (snd y) then 1 else 0))%nat.
Proof.
  induction l as [|c l IH]; [simpl; lia|].
  destruct l as [|e l].
  - simpl. lia.
  - change ((c :: e :: l) ++ [x; y]) with (c :: e :: (l ++ [x; y])).
    change ((c :: e :: l) ++ [x]) with (c :: e :: (l ++ [x])).
    rewrite !spec_moves_cons2.
    change (e :: l ++ [x; y]) with ((e :: l) ++ [x; y]).
    change (e :: l ++ [x]) with ((e :: l) ++ [x]).
    rewrite IH. lia.
Qed.

Lemma spec_moves_rev (moved : Q -> Q -> bool) (l : list Sample) :
  spec_moves moved (rev l) = spec_moves (fun a b => moved b a) l.
Proof.
  induction l as [|a l IH]; [reflexivity|].
  destruct l as [|b l]; [reflexivity|].
  rewrite spec_moves_cons2.
  change (rev (a :: b :: l)) with ((rev l ++ [b]) ++ [a]).
  rewrite <- app_assoc. cbn [app].
  rewrite spec_moves_snoc.
  change (rev l ++ [b]) with (rev (b :: l)). rewrite IH. lia.
Qed.

(** X24: read backwards, a series has its up moves and its down moves
    exchanged. *)
Theorem computeGreenRate_reversed (prices : list Sample) :
  exists g g',
    computeGreenRate prices = Normal g
    /\ computeGreenRate (rev prices) = Normal g'
    /\ up g' = down g /\ down g' = up g.
Proof.
  do 2 eexists. rewrite !computeGreenRate_value.
  split; [reflexivity|]. split; [reflexivity|]. cbn [up down].
  unfold spec_up, spec_down. rewrite !spec_moves_rev. split; reflexivity.
Qed.

End GreenFacts.

Lemma buildPriceBars_count_witness :
  List.length
    (buildPriceBars plain_label
       [(1, 5); (2, 6); (3, 7); (4, 8); (5, 9); (6, 10); (7, 11)]%Q (of_nat 3))
  = Nat.min 3 7.
Proof.
  apply (@buildPriceBars_count plain_label
           [(1, 5); (2, 6); (3, 7); (4, 8); (5, 9); (6, 10); (7, 11)]%Q 3%nat).
  lia.
Defined.

Lemma buildPriceBars_short_series_witness :
  map value (buildPriceBars plain_label [(1, 5); (2, 6)]%Q (of_nat 3))
  = map snd [(1, 5); (2, 6)]%Q
  /\ map label (buildPriceBars plain_label [(1, 5); (2, 6)]%Q (of_nat 3))
     = map (fun s => plain_label (fst s)) [(1, 5); (2, 6)]%Q.
Proof.
  apply (@buildPriceBars_short_series plain_label [(1, 5); (2, 6)]%Q 3%nat).
  - lia.
  - simpl. lia.
Defined.

Lemma buildPriceBars_monotone_witness :
  Forall (fun b1 =>
            Forall (fun b2 =>
                      (value b1 <= value b2)%Q ->
                      num_le (height b1) (height b2))
                   (buildPriceBars plain_label [(1, 5); (2, 0); (3, 7)]%Q
                      (of_nat 3)))
         (buildPriceBars plain_label [(1, 5); (2, 0); (3, 7)]%Q (of_nat 3)).
Proof.
  apply (@buildPriceBars_monotone plain_label [(1, 5); (2, 0); (3, 7)]%Q
           (of_nat 3)).
  repeat constructor; simpl; discriminate.
Defined.

Lemma buildPriceBars_tallest_witness :
  Exists (fun b => height b = Num 100)
         (buildPriceBars plain_label [(1, 5); (2, 6); (3, 7); (4, 8)]%Q
            (of_nat 2)).
Proof.
  apply (@buildPriceBars_tallest plain_label
           [(1, 5); (2, 6); (3, 7); (4, 8)]%Q 2%nat).
  - lia.
  - discriminate.
  - repeat constructor.
Defined.

Lemma buildVolumeBars_monotone_witness :
  Forall (fun b1 =>
            Forall (fun b2 =>
                      (value b1 <= value b2)%Q ->
                      num_le (height b1) (height b2))
                   (buildVolumeBars
                      [sample_coin "a" 1 30 None; sample_coin "b" 1 0 None]%string%Q))
         (buildVolumeBars
            [sample_coin "a" 1 30 None; sample_coin "b" 1 0 None]%string%Q).
Proof.
  apply (@buildVolumeBars_monotone
           [sample_coin "a" 1 30 None; sample_coin "b" 1 0 None]%string%Q).
  repeat constructor; simpl; discriminate.
Defined.
